(** * OpenTTD script API: waypoint list builders and the ambient script object

    A shallow embedding of
    - [src/script/api/script_waypointlist.cpp] (the two list constructors), and
    - [src/script/api/script_object.hpp] (the static facade of [ScriptObject]
      and the scoped [ActiveInstance] helper).

    Integers of the engine ([Owner], [StationID], [VehicleID], [Money], ...)
    are carried as [Z]; pools and per-instance storage are finite maps. *)

From stdpp Require Import gmap list.
From Stdlib Require String.

Local Open Scope Z_scope.

(** ** Engine identifiers *)

Abbreviation Owner := Z (only parsing).
Abbreviation StationID := Z (only parsing).
Abbreviation VehicleID := Z (only parsing).
Abbreviation SignID := Z (only parsing).
Abbreviation GroupID := Z (only parsing).
Abbreviation TileIndex := Z (only parsing).
Abbreviation DestinationID := Z (only parsing).
Abbreviation OrderType := Z (only parsing).
Abbreviation WaypointType := Z (only parsing).
Abbreviation RoadType := Z (only parsing).
Abbreviation RailType := Z (only parsing).
Abbreviation Money := Z (only parsing).

(** A script instance is known by its address. *)
Abbreviation AIInstance := nat (only parsing).

(** ** The engine world *)

(** [Waypoint]: the three members [ScriptWaypointList] reads. *)
Record Waypoint := mkWaypoint {
  wp_index : StationID;
  wp_facilities : Z;
  wp_owner : Owner
}.

(** [Order]: its kind and destination; the [next] pointer of the chain is the
    tail of the list the order sits in. *)
Record Order := mkOrder {
  o_type : OrderType;
  o_dest : DestinationID
}.

(** [Vehicle]: its owner and its order chain, as walked from
    [GetFirstOrder()] through [o->next] up to [NULL]. *)
Record Vehicle := mkVehicle {
  v_owner : Owner;
  v_orders : list Order
}.

(** The world: [_current_company], the waypoints in the order
    [FOR_ALL_WAYPOINTS] visits them, and the vehicle pool by id. *)
Record World := mkWorld {
  current_company : Owner;
  waypoints : list Waypoint;
  vehicles : gmap Z Vehicle
}.

(** Constants of the engine headers that the sources name but do not declare
    (company_type.h, order_type.h, economy_type.h and the id headers), and the
    range of callback-variable indices agreed with the engine.  What [Money]
    makes of a sum below its minimum is the type's own business, which
    neither the sources nor the spec tell: [money_below_min] stands for it. *)
Class EngineHeaders := {
  OWNER_NONE : Owner;
  OT_GOTO_WAYPOINT : OrderType;
  MONEY_MIN : Money;
  MONEY_MAX : Money;
  money_below_min : Z → Money;
  INVALID_VEHICLE : VehicleID;
  INVALID_SIGN : SignID;
  INVALID_GROUP : GroupID;
  INVALID_TILE : TileIndex;
  CALLBACK_VARS : Z
}.

(** ** ScriptList *)

(** Modelled from the spec: [ScriptList] (script_list.hpp) is not part of the
    sources at hand; the spec says the underlying container is a set of
    entity ids, to which [AddItem] adds one id. *)
Definition ScriptList : Type := gset Z.

Definition AddItem (item : Z) (this : ScriptList) : ScriptList :=
  {[ item ]} ∪ this.

(** ** script_waypointlist.cpp *)

Section ListBuilders.
Context `{EngineHeaders}.

(** The condition of the [if] in [ScriptWaypointList::ScriptWaypointList]:
    [(wp->facilities & waypoint_type) &&
     (wp->owner == _current_company || wp->owner == OWNER_NONE)]. *)
Definition waypoint_selected (W : World) (waypoint_type : WaypointType)
    (wp : Waypoint) : bool :=
  negb (Z.land (wp_facilities wp) waypoint_type =? 0)
  && ((wp_owner wp =? current_company W) || (wp_owner wp =? OWNER_NONE)).

(** The body of [FOR_ALL_WAYPOINTS(wp) { if (...) this->AddItem(wp->index); }]
    over the waypoints still to visit. *)
Fixpoint for_all_waypoints (W : World) (waypoint_type : WaypointType)
    (pool : list Waypoint) (this : ScriptList) : ScriptList :=
  match pool with
  | [] => this
  | wp :: rest =>
      for_all_waypoints W waypoint_type rest
        (if waypoint_selected W waypoint_type wp
         then AddItem (wp_index wp) this else this)
  end.

Definition ScriptWaypointList (W : World) (waypoint_type : WaypointType)
    : ScriptList :=
  for_all_waypoints W waypoint_type (waypoints W) ∅.

(** Modelled from the spec: [ScriptVehicle::IsValidVehicle]
    (script_vehicle.cpp) is not part of the sources at hand; the spec reads
    it as "a valid vehicle owned by the current company". *)
Definition IsValidVehicle (W : World) (vehicle_id : VehicleID) : bool :=
  match vehicles W !! vehicle_id with
  | Some v => v_owner v =? current_company W
  | None => false
  end.

(** [o->IsType(t)] and [o->GetDestination()]. *)
Definition IsType (o : Order) (t : OrderType) : bool := o_type o =? t.
Definition GetDestination (o : Order) : DestinationID := o_dest o.

(** [for (o = v->GetFirstOrder(); o != NULL; o = o->next)
       if (o->IsType(OT_GOTO_WAYPOINT)) this->AddItem(o->GetDestination());] *)
Fixpoint walk_orders (chain : list Order) (this : ScriptList) : ScriptList :=
  match chain with
  | [] => this
  | o :: next =>
      walk_orders next
        (if IsType o OT_GOTO_WAYPOINT
         then AddItem (GetDestination o) this else this)
  end.

(** [ScriptWaypointList_Vehicle::ScriptWaypointList_Vehicle]: the early
    [return] leaves the list as constructed, that is empty.  [Vehicle::Get]
    is only reached for an id the pool holds; the [None] branch below is
    the unreachable rest of the match. *)
Definition ScriptWaypointList_Vehicle (W : World) (vehicle_id : VehicleID)
    : ScriptList :=
  if negb (IsValidVehicle W vehicle_id) then ∅
  else
    match vehicles W !! vehicle_id with
    | Some v => walk_orders (v_orders v) ∅
    | None => ∅
    end.

End ListBuilders.

(** ** script_object.hpp: the per-instance storage *)

(** Modelled from the spec: [ScriptErrorType] is declared in
    script_types.hpp, which is not part of the sources at hand. The spec gives
    the error taxonomy; a failure reported by the engine carries the engine's
    error code. *)
Inductive ScriptErrorType :=
| ERR_NONE
| ERR_PRECONDITION_FAILED
| ERR_INVALID_ENTITY
| ERR_COMMAND_FAILED (code : Z)
| ERR_OVERFLOW.

(** [typedef bool (AIModeProc)();] *)
Definition AIModeProc : Type := unit → bool.

(** Modelled from the spec: the storage class of a script instance is not
    part of the sources at hand; these are the ambient fields of the spec's
    data model, with the types the header's accessors give them.
    [mode_instance], [event_ptr] and [log_ptr] are addresses ([None] is
    [NULL]). *)
Record Context := mkContext {
  costs : Money;
  last_cost : Money;
  last_error : ScriptErrorType;
  last_cmd_result : bool;
  road_type : RoadType;
  rail_type : RailType;
  mode_proc : option AIModeProc;
  mode_instance : option Z;
  cmd_delay : Z;
  allow_do_command : bool;
  new_vehicle_id : VehicleID;
  new_sign_id : SignID;
  new_group_id : GroupID;
  new_tunnel_endtile : TileIndex;
  callback_vars : gmap Z Z;
  event_ptr : option Z;
  log_ptr : option Z
}.

(** The fields that have a [Set<Field>]/[Get<Field>] pair (or, for the two
    pointers, a reference slot) of their own. *)
Inductive Field :=
| F_costs | F_last_cost | F_last_error | F_last_cmd_result
| F_road_type | F_rail_type | F_mode_proc | F_mode_instance
| F_cmd_delay | F_allow_do_command
| F_new_vehicle_id | F_new_sign_id | F_new_group_id | F_new_tunnel_endtile
| F_event_ptr | F_log_ptr.

Definition field_type (f : Field) : Type :=
  match f with
  | F_last_error => ScriptErrorType
  | F_last_cmd_result | F_allow_do_command => bool
  | F_mode_proc => option AIModeProc
  | F_mode_instance | F_event_ptr | F_log_ptr => option Z
  | _ => Z
  end.

Definition get_field (f : Field) (c : Context) : field_type f :=
  match f with
  | F_costs => costs c
  | F_last_cost => last_cost c
  | F_last_error => last_error c
  | F_last_cmd_result => last_cmd_result c
  | F_road_type => road_type c
  | F_rail_type => rail_type c
  | F_mode_proc => mode_proc c
  | F_mode_instance => mode_instance c
  | F_cmd_delay => cmd_delay c
  | F_allow_do_command => allow_do_command c
  | F_new_vehicle_id => new_vehicle_id c
  | F_new_sign_id => new_sign_id c
  | F_new_group_id => new_group_id c
  | F_new_tunnel_endtile => new_tunnel_endtile c
  | F_event_ptr => event_ptr c
  | F_log_ptr => log_ptr c
  end.

Definition set_field (f : Field) (v : field_type f) (c : Context) : Context :=
  {| costs :=
       match f return field_type f → Money with
       | F_costs => λ v, v | _ => λ _, costs c end v;
     last_cost :=
       match f return field_type f → Money with
       | F_last_cost => λ v, v | _ => λ _, last_cost c end v;
     last_error :=
       match f return field_type f → ScriptErrorType with
       | F_last_error => λ v, v | _ => λ _, last_error c end v;
     last_cmd_result :=
       match f return field_type f → bool with
       | F_last_cmd_result => λ v, v | _ => λ _, last_cmd_result c end v;
     road_type :=
       match f return field_type f → RoadType with
       | F_road_type => λ v, v | _ => λ _, road_type c end v;
     rail_type :=
       match f return field_type f → RailType with
       | F_rail_type => λ v, v | _ => λ _, rail_type c end v;
     mode_proc :=
       match f return field_type f → option AIModeProc with
       | F_mode_proc => λ v, v | _ => λ _, mode_proc c end v;
     mode_instance :=
       match f return field_type f → option Z with
       | F_mode_instance => λ v, v | _ => λ _, mode_instance c end v;
     cmd_delay :=
       match f return field_type f → Z with
       | F_cmd_delay => λ v, v | _ => λ _, cmd_delay c end v;
     allow_do_command :=
       match f return field_type f → bool with
       | F_allow_do_command => λ v, v | _ => λ _, allow_do_command c end v;
     new_vehicle_id :=
       match f return field_type f → VehicleID with
       | F_new_vehicle_id => λ v, v | _ => λ _, new_vehicle_id c end v;
     new_sign_id :=
       match f return field_type f → SignID with
       | F_new_sign_id => λ v, v | _ => λ _, new_sign_id c end v;
     new_group_id :=
       match f return field_type f → GroupID with
       | F_new_group_id => λ v, v | _ => λ _, new_group_id c end v;
     new_tunnel_endtile :=
       match f return field_type f → TileIndex with
       | F_new_tunnel_endtile => λ v, v | _ => λ _, new_tunnel_endtile c end v;
     callback_vars := callback_vars c;
     event_ptr :=
       match f return field_type f → option Z with
       | F_event_ptr => λ v, v | _ => λ _, event_ptr c end v;
     log_ptr :=
       match f return field_type f → option Z with
       | F_log_ptr => λ v, v | _ => λ _, log_ptr c end v |}.

Definition set_callback_vars (vars : gmap Z Z) (c : Context) : Context :=
  {| costs := costs c; last_cost := last_cost c; last_error := last_error c;
     last_cmd_result := last_cmd_result c; road_type := road_type c;
     rail_type := rail_type c; mode_proc := mode_proc c;
     mode_instance := mode_instance c; cmd_delay := cmd_delay c;
     allow_do_command := allow_do_command c;
     new_vehicle_id := new_vehicle_id c; new_sign_id := new_sign_id c;
     new_group_id := new_group_id c;
     new_tunnel_endtile := new_tunnel_endtile c;
     callback_vars := vars;
     event_ptr := event_ptr c; log_ptr := log_ptr c |}.

(** ** The engine's command dispatcher and the host state *)

(** The arguments [DoCommand] hands to the dispatcher. *)
Record CommandArgs := mkCommand {
  c_tile : TileIndex;
  c_p1 : Z;
  c_p2 : Z;
  c_cmd : Z;
  c_text : option String.string
}.

(** What the dispatcher answers: success, cost, the engine's error code, the
    ids the command assigned, and whether the command is still pending. *)
Record CommandResult := mkResult {
  r_success : bool;
  r_cost : Money;
  r_error : Z;
  r_new_vehicle : option VehicleID;
  r_new_sign : option SignID;
  r_new_group : option GroupID;
  r_new_tunnel_endtile : option TileIndex;
  r_pending : bool
}.

(** Modelled from the spec: the dispatcher is the engine's,
    [submit(tile, p1, p2, cmd, text) -> (success, cost, error, new ids)];
    the script object only calls it. *)
Class Dispatcher := {
  submit : CommandArgs → World → World * CommandResult
}.

(** Everything the static members of [ScriptObject] read or write: the
    activations in progress (the head is [ActiveInstance::active]), the
    storage of each live instance, the engine world, the host's
    safe-to-suspend flag, the commands handed to the dispatcher so far and the
    callbacks the host holds for suspended instances. *)
Record ScriptState := mkState {
  active_stack : list AIInstance;
  storage : gmap nat Context;
  engine : World;
  safe_to_suspend : bool;
  dispatched : list CommandArgs;
  suspensions : list (AIInstance * Z)
}.

Definition with_stack (l : list AIInstance) (st : ScriptState) : ScriptState :=
  {| active_stack := l; storage := storage st; engine := engine st;
     safe_to_suspend := safe_to_suspend st; dispatched := dispatched st;
     suspensions := suspensions st |}.

Definition with_storage (m : gmap nat Context) (st : ScriptState) : ScriptState :=
  {| active_stack := active_stack st; storage := m; engine := engine st;
     safe_to_suspend := safe_to_suspend st; dispatched := dispatched st;
     suspensions := suspensions st |}.

Definition with_dispatch (w : World) (args : CommandArgs) (st : ScriptState)
    : ScriptState :=
  {| active_stack := active_stack st; storage := storage st; engine := w;
     safe_to_suspend := safe_to_suspend st;
     dispatched := args :: dispatched st;
     suspensions := suspensions st |}.

Definition with_suspension (i : AIInstance) (callback : Z) (st : ScriptState)
    : ScriptState :=
  {| active_stack := active_stack st; storage := storage st;
     engine := engine st; safe_to_suspend := safe_to_suspend st;
     dispatched := dispatched st;
     suspensions := (i, callback) :: suspensions st |}.

(** ** The script monad: state passing, [None] for a fatal programmer error *)

Definition Script (A : Type) : Type := ScriptState → option (A * ScriptState).

Definition ret {A} (a : A) : Script A := λ st, Some (a, st).

Definition bind {A B} (m : Script A) (f : A → Script B) : Script B :=
  λ st,
    match m st with
    | Some (a, st') => f a st'
    | None => None
    end.

Notation "'let*' x := m 'in' k" := (bind m (λ x, k))
  (at level 10, x name, m at level 100, k at level 200).
Notation "m >> k" := (bind m (λ _, k))
  (at level 61, left associativity).

(** The value a script computes, and the state it leaves. *)
Definition eval {A} (m : Script A) (st : ScriptState) : option A :=
  fst <$> m st.

Definition exec {A} (m : Script A) (st : ScriptState) : option ScriptState :=
  snd <$> m st.

(** ** ScriptObject::ActiveInstance *)

(** The object holds [last_active]; the static [active] is the head of the
    stack of activations ([None] is [NULL]). *)
Record ActiveInstance := mkActiveInstance {
  last_active : option AIInstance
}.

Definition active (st : ScriptState) : option AIInstance :=
  head (active_stack st).

(** Modelled from the spec: the constructor of [ActiveInstance]
    (script_object.cpp) is not part of the sources at hand. [push(instance)]
    records the current top as saved and sets the top to [instance]; pushing
    a destroyed instance is a fatal programmer error. *)
Definition ActiveInstance_ctor (instance : AIInstance) : Script ActiveInstance :=
  λ st,
    match storage st !! instance with
    | Some _ => Some (mkActiveInstance (active st),
                      with_stack (instance :: active_stack st) st)
    | None => None
    end.

(** Modelled from the spec: the destructor of [ActiveInstance]
    (script_object.cpp) is not part of the sources at hand. [pop(saved)]
    asserts that the saved value matches the LIFO discipline and restores the
    top to it. *)
Definition ActiveInstance_dtor (this : ActiveInstance) : Script unit :=
  λ st,
    match active_stack st with
    | [] => None
    | _ :: rest =>
        if decide (head rest = last_active this)
        then Some (tt, with_stack rest st)
        else None
    end.

(** ** The ambient accessor facade *)

(** Modelled from the spec: the bodies of the static members below live in
    script_object.cpp, which is not part of the sources at hand; the header
    gives their names and types.  [current()] has the precondition that an
    instance is active. *)
Definition GetActiveInstance : Script AIInstance :=
  λ st,
    match active_stack st with
    | i :: _ => Some (i, st)
    | [] => None
    end.

(** Modelled from the spec: [current().context], the storage of the active
    instance; a destroyed instance has none. *)
Definition GetStorage : Script Context :=
  let* i := GetActiveInstance in
  λ st,
    match storage st !! i with
    | Some c => Some (c, st)
    | None => None
    end.

(** Modelled from the spec: a write to [current().context]. *)
Definition PutStorage (c : Context) : Script unit :=
  let* i := GetActiveInstance in
  λ st, Some (tt, with_storage (<[i := c]> (storage st)) st).

(** Modelled from the spec: [Get<Field>()] returns the current value from
    [current().context.<field>]; [Set<Field>(v)] writes [v] to it. *)
Definition GetField (f : Field) : Script (field_type f) :=
  let* c := GetStorage in ret (get_field f c).

Definition SetField (f : Field) (v : field_type f) : Script unit :=
  let* c := GetStorage in PutStorage (set_field f v c).

(** Modelled from the spec: the accessor pairs the header declares, each the
    [Set<Field>]/[Get<Field>] of its field. *)
Definition SetLastCommandRes (res : bool) := SetField F_last_cmd_result res.
Definition SetDoCommandCosts (value : Money) := SetField F_costs value.
Definition GetDoCommandCosts := GetField F_costs.
Definition SetLastError (e : ScriptErrorType) := SetField F_last_error e.
Definition GetLastError := GetField F_last_error.
Definition SetRoadType (t : RoadType) := SetField F_road_type t.
Definition GetRoadType := GetField F_road_type.
Definition SetRailType (t : RailType) := SetField F_rail_type t.
Definition GetRailType := GetField F_rail_type.
Definition SetDoCommandMode (proc : option AIModeProc) (instance : option Z)
    : Script unit :=
  SetField F_mode_proc proc >> SetField F_mode_instance instance.
Definition GetDoCommandMode := GetField F_mode_proc.
Definition GetDoCommandModeInstance := GetField F_mode_instance.
Definition SetDoCommandDelay (ticks : Z) := SetField F_cmd_delay ticks.
Definition GetDoCommandDelay := GetField F_cmd_delay.
Definition SetAllowDoCommand (allow : bool) := SetField F_allow_do_command allow.
Definition GetAllowDoCommand := GetField F_allow_do_command.
Definition SetLastCost (c : Money) := SetField F_last_cost c.
Definition GetLastCost := GetField F_last_cost.
Definition SetNewVehicleID (id : VehicleID) := SetField F_new_vehicle_id id.
Definition GetNewVehicleID := GetField F_new_vehicle_id.
Definition SetNewSignID (id : SignID) := SetField F_new_sign_id id.
Definition GetNewSignID := GetField F_new_sign_id.
Definition SetNewTunnelEndtile (t : TileIndex) := SetField F_new_tunnel_endtile t.
Definition GetNewTunnelEndtile := GetField F_new_tunnel_endtile.
Definition SetNewGroupID (id : GroupID) := SetField F_new_group_id id.
Definition GetNewGroupID := GetField F_new_group_id.
Definition GetEventPointer := GetField F_event_ptr.
Definition GetLogPointer := GetField F_log_ptr.

Section Facade.
Context `{EngineHeaders} `{Dispatcher}.

(** What the spec says of a storage at the creation of its instance: the
    [new_*] ids are invalid and no callback variable is set. *)
Definition created (c : Context) : Prop :=
  new_vehicle_id c = INVALID_VEHICLE ∧ new_sign_id c = INVALID_SIGN ∧
  new_group_id c = INVALID_GROUP ∧ new_tunnel_endtile c = INVALID_TILE ∧
  callback_vars c = ∅.


(** Modelled from the spec: the [+=] of [Money], saturating on overflow to
    the type's max; a sum below the minimum becomes what the type makes of
    it. *)
Definition money_add (c value : Money) : Money :=
  if MONEY_MAX <? c + value then MONEY_MAX
  else if c + value <? MONEY_MIN then money_below_min (c + value)
  else c + value.

(** Modelled from the spec: [costs += amount], saturating on overflow to the
    type's max; a saturated accumulator is reported as the advisory
    [ERR_OVERFLOW]. *)
Definition IncreaseDoCommandCosts (value : Money) : Script unit :=
  let* c := GetDoCommandCosts in
  if MONEY_MAX <? c + value
  then SetDoCommandCosts MONEY_MAX >> SetLastError ERR_OVERFLOW
  else SetDoCommandCosts (money_add c value).

(** Modelled from the spec: [callback_vars] maps a small index to a signed
    integer, an unset index reads as zero, and the indices are bounded to the
    range agreed with the engine; an index out of that range is a programmer
    error. *)
Definition callback_index_ok (index : Z) : bool :=
  (0 <=? index) && (index <? CALLBACK_VARS).

(** Modelled from the spec: a write of one callback variable. *)
Definition SetCallbackVariable (index value : Z) : Script unit :=
  if callback_index_ok index then
    let* c := GetStorage in
    PutStorage (set_callback_vars (<[index := value]> (callback_vars c)) c)
  else λ _, None.

(** Modelled from the spec: reading an unset index yields zero. *)
Definition GetCallbackVariable (index : Z) : Script Z :=
  if callback_index_ok index then
    let* c := GetStorage in ret (default 0 (callback_vars c !! index))
  else λ _, None.

(** Modelled from the spec: true iff the host runtime is at a safe suspension
    point and [allow_do_command] is true. *)
Definition CanSuspend : Script bool :=
  let* allow := GetAllowDoCommand in
  λ st, Some (safe_to_suspend st && allow, st).

(** Modelled from the spec: the mode hook asks for an estimate when it is
    set and answers false. *)
Definition estimate_only (mode : option AIModeProc) : bool :=
  match mode with
  | Some proc => negb (proc tt)
  | None => false
  end.

(** Modelled from the spec: in a dry run the costs are computed and no
    world mutation occurs: the dispatcher computes the result and the world
    it returns is dropped. *)
Definition dry_run (args : CommandArgs) : Script CommandResult :=
  λ st, Some (snd (submit args (engine st)), st).

(** Modelled from the spec: a real run submits the command to the engine,
    whose world is the one the dispatcher returns. *)
Definition dispatch (args : CommandArgs) : Script CommandResult :=
  λ st,
    let '(w, res) := submit args (engine st) in
    Some (res, with_dispatch w args st).

(** Modelled from the spec: the host hook [suspend_current(callback,
    instance)] keeps the callback for the instance. *)
Definition suspend_current (callback : Z) : Script unit :=
  let* i := GetActiveInstance in
  λ st, Some (tt, with_suspension i callback st).

(** A [new_*] id is overwritten when the command assigned one. *)
Definition store_new {A} (set : A → Script unit) (id : option A) : Script unit :=
  match id with
  | Some x => set x
  | None => ret tt
  end.

(** Modelled from the spec: the contract of [DoCommand], steps 1 to 5. *)
Definition DoCommand (args : CommandArgs) (callback : option Z) : Script bool :=
  let* can := CanSuspend in
  if negb can then SetLastError ERR_PRECONDITION_FAILED >> ret false
  else
    let* mode := GetDoCommandMode in
    if estimate_only mode then
      let* res := dry_run args in
      SetLastCost (r_cost res) >> SetLastCommandRes true >> ret true
    else
      let* res := dispatch args in
      SetLastCost (r_cost res) >>
      (if r_success res then
         store_new SetNewVehicleID (r_new_vehicle res) >>
         store_new SetNewSignID (r_new_sign res) >>
         store_new SetNewGroupID (r_new_group res) >>
         store_new SetNewTunnelEndtile (r_new_tunnel_endtile res)
       else SetLastError (ERR_COMMAND_FAILED (r_error res))) >>
      SetLastCommandRes (r_success res) >>
      (match callback with
       | Some cb => if r_pending res then suspend_current cb else ret tt
       | None => ret tt
       end) >>
      ret (r_success res).

(** ** Script code as the facade sees it *)

(** [current st i c]: instance [i] is the active one and [c] is its storage. *)
Definition current (st : ScriptState) (i : AIInstance) (c : Context) : Prop :=
  active st = Some i ∧ storage st !! i = Some c.

(** One call of the facade. *)
Inductive Op :=
| OpSet (f : Field) (v : field_type f)
| OpGet (f : Field)
| OpSetCallbackVariable (index value : Z)
| OpGetCallbackVariable (index : Z)
| OpIncreaseDoCommandCosts (value : Money)
| OpDoCommand (args : CommandArgs) (callback : option Z).

Definition run_op (op : Op) : Script unit :=
  match op with
  | OpSet f v => SetField f v
  | OpGet f => GetField f >> ret tt
  | OpSetCallbackVariable index value => SetCallbackVariable index value
  | OpGetCallbackVariable index => GetCallbackVariable index >> ret tt
  | OpIncreaseDoCommandCosts value => IncreaseDoCommandCosts value
  | OpDoCommand args callback => DoCommand args callback >> ret tt
  end.

Fixpoint run_ops (ops : list Op) : Script unit :=
  match ops with
  | [] => ret tt
  | op :: rest => run_op op >> run_ops rest
  end.

#[local] Set Warnings "-register-all".

(** A block of script code: facade calls and nested scopes, each scope
    holding an [ActiveInstance] from its first to its last line. *)
Inductive Stmt :=
| SCall (op : Op)
| SScope (instance : AIInstance) (body : list Stmt).

Fixpoint run_stmt (s : Stmt) : Script unit :=
  match s with
  | SCall op => run_op op
  | SScope instance body =>
      let* this := ActiveInstance_ctor instance in
      (fix run_body (l : list Stmt) : Script unit :=
         match l with
         | [] => ret tt
         | s' :: l' => run_stmt s' >> run_body l'
         end) body >>
      ActiveInstance_dtor this
  end.

Definition run_stmts : list Stmt → Script unit :=
  fix run_body (l : list Stmt) : Script unit :=
    match l with
    | [] => ret tt
    | s' :: l' => run_stmt s' >> run_body l'
    end.

(** What an accessor pair reads and writes: a field, or one callback
    variable. *)
Inductive Slot :=
| SlotField (f : Field)
| SlotCallback (index : Z).

Definition slot_type (s : Slot) : Type :=
  match s with
  | SlotField f => field_type f
  | SlotCallback _ => Z
  end.

Definition SetSlot (s : Slot) : slot_type s → Script unit :=
  match s with
  | SlotField f => SetField f
  | SlotCallback index => SetCallbackVariable index
  end.

Definition GetSlot (s : Slot) : Script (slot_type s) :=
  match s with
  | SlotField f => GetField f
  | SlotCallback index => GetCallbackVariable index
  end.

(** The value of slot [s] in storage [c], and the slots that exist. *)
Definition read_slot (s : Slot) (c : Context) : slot_type s :=
  match s with
  | SlotField f => get_field f c
  | SlotCallback index => default 0 (callback_vars c !! index)
  end.

Definition slot_ok (s : Slot) : bool :=
  match s with
  | SlotField _ => true
  | SlotCallback index => callback_index_ok index
  end.

(** The slots a call of the facade may set in the storage of the active
    instance: a [Set] sets its own slot, [IncreaseDoCommandCosts] sets
    [costs] and, on saturation, [last_error], and [DoCommand] sets the fields
    that hold the outcome of a command. *)
Definition op_writes (op : Op) : list Slot :=
  match op with
  | OpSet f _ => [SlotField f]
  | OpGet _ => []
  | OpSetCallbackVariable index _ => [SlotCallback index]
  | OpGetCallbackVariable _ => []
  | OpIncreaseDoCommandCosts _ => [SlotField F_costs; SlotField F_last_error]
  | OpDoCommand _ _ =>
      [SlotField F_last_error; SlotField F_last_cost;
       SlotField F_last_cmd_result; SlotField F_new_vehicle_id;
       SlotField F_new_sign_id; SlotField F_new_group_id;
       SlotField F_new_tunnel_endtile]
  end.

(** The slots a statement may set in the storage of instance [i] when it
    runs with [cur] active: a call sets slots of the active instance only,
    and inside a scope the instance of the scope is the active one. *)
Fixpoint stmt_writes (i cur : AIInstance) (c : Stmt) : list Slot :=
  match c with
  | SCall op => if decide (cur = i) then op_writes op else []
  | SScope instance body =>
      (fix body_writes (l : list Stmt) : list Slot :=
         match l with
         | [] => []
         | c' :: l' => stmt_writes i instance c' ++ body_writes l'
         end) body
  end.

Definition code_writes (i cur : AIInstance) : list Stmt → list Slot :=
  fix body_writes (l : list Stmt) : list Slot :=
    match l with
    | [] => []
    | c' :: l' => stmt_writes i cur c' ++ body_writes l'
    end.

End Facade.

(** ** Frame conditions *)

(** Every run of [m] relates the state before to the state after by [R]. *)
Definition preserves {A} (R : relation ScriptState) (m : Script A) : Prop :=
  ∀ st a st', m st = Some (a, st') → R st st'.

(** The activations are the same, and every live storage is still live and
    related by [Q] to what it was. *)
Definition storage_rel (Q : relation Context) : relation ScriptState :=
  λ st st',
    active_stack st' = active_stack st ∧
    ∀ i c, storage st !! i = Some c →
           ∃ c', storage st' !! i = Some c' ∧ Q c c'.

(** The activations are the same, and the storage of instance [i], if it
    is live, is still live with the same value in slot [s]. *)
Definition slot_rel (s : Slot) (i : AIInstance) : relation ScriptState :=
  λ st st',
    active_stack st' = active_stack st ∧
    ∀ c, storage st !! i = Some c →
         ∃ c', storage st' !! i = Some c' ∧ read_slot s c' = read_slot s c.

(** Every run of [m] that starts with [cur] active relates the state before
    to the state after by [R]. *)
Definition preserves_from {A} (cur : AIInstance) (R : relation ScriptState)
    (m : Script A) : Prop :=
  ∀ st a st', active st = Some cur → m st = Some (a, st') → R st st'.

(** ** Test data: the worlds of scenarios S4 and S5 *)

(** Header constants as the test worlds use them. *)
Definition test_headers : EngineHeaders :=
  {| OWNER_NONE := 16; OT_GOTO_WAYPOINT := 6;
     MONEY_MIN := - 2 ^ 63; MONEY_MAX := 2 ^ 63 - 1;
     money_below_min := λ _, - 2 ^ 63;
     INVALID_VEHICLE := 1048575; INVALID_SIGN := 65535;
     INVALID_GROUP := 65535; INVALID_TILE := 4294967295;
     CALLBACK_VARS := 8 |}.

(** Companies C1 = 0 and C2 = 1; facilities RAIL = 1 and BUS = 4; waypoints
    W1..W4 of scenario S4. *)
Definition test_waypoints : list Waypoint :=
  [ mkWaypoint 1 1 0; mkWaypoint 2 4 0; mkWaypoint 3 1 16; mkWaypoint 4 1 1 ].

(** Vehicle 1 of scenario S5 (owned by C1), vehicle 2 owned by C2, and
    vehicle 3 of C1 heading for the waypoint of C2 and for an id no waypoint
    has. Order kind 1 is a station order. *)
Definition test_vehicles : gmap Z Vehicle :=
  <[ 1 := mkVehicle 0 [ mkOrder 6 1; mkOrder 1 7; mkOrder 6 3; mkOrder 6 1 ] ]>
  (<[ 2 := mkVehicle 1 [ mkOrder 6 1 ] ]>
  (<[ 3 := mkVehicle 0 [ mkOrder 6 4; mkOrder 6 99 ] ]> ∅)).

Definition test_world : World := mkWorld 0 test_waypoints test_vehicles.

(** A dispatcher for the tests: every command succeeds at a cost of 500 and
    builds a rail waypoint of the current company with the id in [p1]. *)
Definition test_dispatcher : Dispatcher :=
  {| submit args W :=
       (mkWorld (current_company W)
                (mkWaypoint (c_p1 args) 1 (current_company W) :: waypoints W)
                (vehicles W),
        mkResult true 500 0 None None None None false) |}.

(** A storage as an instance has it at creation, with commands allowed. *)
Definition test_context : Context :=
  {| costs := 0; last_cost := 0; last_error := ERR_NONE;
     last_cmd_result := false; road_type := 0; rail_type := 0;
     mode_proc := None; mode_instance := None; cmd_delay := 1;
     allow_do_command := true;
     new_vehicle_id := 1048575; new_sign_id := 65535;
     new_group_id := 65535; new_tunnel_endtile := 4294967295;
     callback_vars := ∅; event_ptr := None; log_ptr := None |}.

(** Two live instances I1 and I2, none active, the host at a safe point. *)
Definition test_state : ScriptState :=
  {| active_stack := [];
     storage := <[ 1%nat := test_context ]> (<[ 2%nat := test_context ]> ∅);
     engine := test_world; safe_to_suspend := true;
     dispatched := []; suspensions := [] |}.

Definition test_command : CommandArgs := mkCommand 100 9 0 7 None.

(** The hook of a test mode: every command is an estimate. *)
Definition test_mode_proc : AIModeProc := λ _, false.

(** The test state with I1 active on storage [c]. *)
Definition test_state_with (c : Context) : ScriptState :=
  with_storage (<[ 1%nat := c ]> (storage test_state))
    (with_stack [1%nat] test_state).

(** I1 in a test mode, once with commands allowed and once without. *)
Definition test_estimating : Context :=
  set_field F_mode_instance (Some 7)
    (set_field F_mode_proc (Some test_mode_proc) test_context).

Definition test_forbidden : Context :=
  set_field F_allow_do_command false test_estimating.

(** The state a script leaves; the state it started from if it failed. *)
Definition after {A} (m : Script A) (st : ScriptState) : ScriptState :=
  default st (exec m st).

(** A fleet of C1 for the order-chain laws: vehicle 10 is V1 of scenario
    S5, vehicle 11 has the same waypoint orders in another arrangement and no
    station order, vehicle 12 heads for W4, and the chain of vehicle 13 is
    that of vehicle 10 followed by that of vehicle 12. *)
Definition test_fleet : World :=
  mkWorld 0 test_waypoints
    (<[ 10 := mkVehicle 0 [mkOrder 6 1; mkOrder 1 7; mkOrder 6 3; mkOrder 6 1] ]>
    (<[ 11 := mkVehicle 0 [mkOrder 6 1; mkOrder 6 1; mkOrder 6 3] ]>
    (<[ 12 := mkVehicle 0 [mkOrder 6 4] ]>
    (<[ 13 := mkVehicle 0 [mkOrder 6 1; mkOrder 1 7; mkOrder 6 3; mkOrder 6 1;
                           mkOrder 6 4] ]> ∅)))).

(** * Properties of the list builders *)

Section ListBuilderProofs.
Context `{EngineHeaders}.

Lemma for_all_waypoints_spec W t pool this i :
  i ∈ for_all_waypoints W t pool this ↔
  i ∈ this ∨ ∃ wp, wp ∈ pool ∧ wp_index wp = i ∧ waypoint_selected W t wp = true.
Proof.
  revert this. induction pool as [|wp rest IH]; intros this; simpl.
  - split; [auto|]. intros [?|(wp & Hin & _)]; [done|]. by apply elem_of_nil in Hin.
  - rewrite IH. unfold AddItem.
    destruct (waypoint_selected W t wp) eqn:Hsel.
    + rewrite elem_of_union, elem_of_singleton. split.
      * intros [[->|?]|(w & Hw & ? & ?)]; [right|by left|right].
        -- exists wp. split; [apply elem_of_cons; auto|done].
        -- exists w. split; [apply elem_of_cons; auto|done].
      * intros [?|(w & Hw & Hi & Hs)]; [by left; right|].
        apply elem_of_cons in Hw as [->|Hw]; [left; left; done|].
        right. by exists w.
    + split.
      * intros [?|(w & Hw & ? & ?)]; [by left|right].
        exists w. split; [apply elem_of_cons; auto|done].
      * intros [?|(w & Hw & Hi & Hs)]; [by left|].
        apply elem_of_cons in Hw as [->|Hw]; [congruence|].
        right. by exists w.
Qed.

Lemma waypoint_selected_true W t wp :
  waypoint_selected W t wp = true ↔
  Z.land (wp_facilities wp) t ≠ 0 ∧
  (wp_owner wp = current_company W ∨ wp_owner wp = OWNER_NONE).
Proof.
  unfold waypoint_selected.
  rewrite andb_true_iff, negb_true_iff, orb_true_iff, Z.eqb_neq, !Z.eqb_eq.
  done.
Qed.

(** The loop over the order chain computes the set of the destinations of
    the [OT_GOTO_WAYPOINT] orders, on top of what the list held. *)
Lemma walk_orders_set chain this :
  walk_orders chain this =
  list_to_set
    (GetDestination <$> filter (λ o, IsType o OT_GOTO_WAYPOINT = true) chain)
  ∪ this.
Proof.
  revert this. induction chain as [|o next IH]; intros this; simpl.
  - by rewrite (left_id_L ∅ (∪)).
  - rewrite IH. unfold AddItem. rewrite filter_cons.
    destruct (decide (IsType o OT_GOTO_WAYPOINT = true)) as [Ht|Hf].
    + rewrite Ht. simpl.
      by rewrite (assoc_L (∪)), (comm_L (∪) _ {[GetDestination o]}).
    + destruct (IsType o OT_GOTO_WAYPOINT); [done|]. reflexivity.
Qed.

Lemma IsValidVehicle_true W vid :
  IsValidVehicle W vid = true ↔
  ∃ v, vehicles W !! vid = Some v ∧ v_owner v = current_company W.
Proof.
  unfold IsValidVehicle. destruct (vehicles W !! vid) as [v|].
  - rewrite Z.eqb_eq. split; [eauto|]. by intros (v' & [= <-] & ?).
  - split; [done|]. by intros (? & ? & _).
Qed.

Lemma ScriptWaypointList_Vehicle_valid W vid v :
  vehicles W !! vid = Some v → v_owner v = current_company W →
  ScriptWaypointList_Vehicle W vid =
  list_to_set
    (GetDestination <$>
       filter (λ o, IsType o OT_GOTO_WAYPOINT = true) (v_orders v)).
Proof.
  intros Hv Ho. unfold ScriptWaypointList_Vehicle.
  assert (IsValidVehicle W vid = true) as ->
    by (apply IsValidVehicle_true; eauto).
  simpl. rewrite Hv, walk_orders_set. apply (right_id_L ∅ (∪)).
Qed.

Lemma size_list_to_set_remove_dups (l : list Z) :
  size (list_to_set l : gset Z) = length (remove_dups l).
Proof.
  rewrite <- (size_list_to_set (C := gset Z) (remove_dups l))
    by apply NoDup_remove_dups.
  f_equal. apply set_eq. intros x.
  by rewrite !elem_of_list_to_set, elem_of_remove_dups.
Qed.

(** C2. [WaypointList(t)] holds exactly the ids of the waypoints [w] of the
    world with [w.facilities & t] non-zero and [w.owner] the current company
    or [OWNER_NONE]. *)
Theorem ScriptWaypointList_exact (W : World) (t : WaypointType) (i : Z) :
  i ∈ ScriptWaypointList W t ↔
  ∃ wp, wp ∈ waypoints W ∧ wp_index wp = i ∧
        Z.land (wp_facilities wp) t ≠ 0 ∧
        (wp_owner wp = current_company W ∨ wp_owner wp = OWNER_NONE).
Proof.
  unfold ScriptWaypointList. rewrite for_all_waypoints_spec. split.
  - intros [Hin|(wp & Hin & Hi & Hs)]; [by apply not_elem_of_empty in Hin|].
    apply waypoint_selected_true in Hs. by exists wp.
  - intros (wp & Hin & Hi & Hs). right. exists wp.
    by rewrite waypoint_selected_true.
Qed.

(** C3. For a vehicle id that names no vehicle, or a vehicle of another
    company, [WaypointList_Vehicle] is empty. *)
Theorem ScriptWaypointList_Vehicle_invalid (W : World) (vid : VehicleID) :
  (vehicles W !! vid = None ∨
   ∃ v, vehicles W !! vid = Some v ∧ v_owner v ≠ current_company W) →
  ScriptWaypointList_Vehicle W vid = ∅.
Proof.
  intros Hbad. unfold ScriptWaypointList_Vehicle.
  destruct (IsValidVehicle W vid) eqn:Hvalid; [|done].
  apply IsValidVehicle_true in Hvalid as (v & Hv & Ho).
  destruct Hbad as [Hn|(v' & Hv' & Ho')]; congruence.
Qed.

(** C4. For a valid vehicle of the current company, [WaypointList_Vehicle]
    holds exactly the destinations of the [OT_GOTO_WAYPOINT] orders of its
    chain, each destination once however often the chain names it. *)
Theorem ScriptWaypointList_Vehicle_exact (W : World) (vid : VehicleID)
    (v : Vehicle) :
  vehicles W !! vid = Some v → v_owner v = current_company W →
  (∀ d, d ∈ ScriptWaypointList_Vehicle W vid ↔
        ∃ o, o ∈ v_orders v ∧ IsType o OT_GOTO_WAYPOINT = true ∧
             GetDestination o = d) ∧
  size (ScriptWaypointList_Vehicle W vid) =
  length (remove_dups
            (GetDestination <$>
               filter (λ o, IsType o OT_GOTO_WAYPOINT = true) (v_orders v))).
Proof.
  intros Hv Ho. rewrite (ScriptWaypointList_Vehicle_valid W vid v Hv Ho).
  split; [|apply size_list_to_set_remove_dups].
  intros d. rewrite elem_of_list_to_set, list_elem_of_fmap. split.
  - intros (o & -> & Hin). apply list_elem_of_filter in Hin as [Ht Hin]. eauto.
  - intros (o & Hin & Ht & <-). exists o. split; [done|].
    by apply list_elem_of_filter.
Qed.

(** C10. For a valid vehicle of the current company, the destination of
    every [OT_GOTO_WAYPOINT] order is in [WaypointList_Vehicle], and the list
    is the same whatever waypoints the world holds and whoever owns them. *)
Theorem ScriptWaypointList_Vehicle_unfiltered (W : World) (vid : VehicleID)
    (v : Vehicle) (o : Order) :
  vehicles W !! vid = Some v → v_owner v = current_company W →
  o ∈ v_orders v → IsType o OT_GOTO_WAYPOINT = true →
  GetDestination o ∈ ScriptWaypointList_Vehicle W vid ∧
  ∀ pool : list Waypoint,
    ScriptWaypointList_Vehicle (mkWorld (current_company W) pool (vehicles W)) vid
    = ScriptWaypointList_Vehicle W vid.
Proof.
  intros Hv Ho Hin Ht. split.
  - rewrite (ScriptWaypointList_Vehicle_valid W vid v Hv Ho).
    apply elem_of_list_to_set, list_elem_of_fmap. exists o. split; [done|].
    by apply list_elem_of_filter.
  - intros pool. reflexivity.
Qed.

End ListBuilderProofs.

(** ** Laws of the two loops *)

Section ListBuilderLaws.
Context `{EngineHeaders}.

(** The waypoint loop computes the set of the indices of the waypoints that
    pass the test, on top of what the list held. *)
Lemma for_all_waypoints_set W t pool this :
  for_all_waypoints W t pool this =
  list_to_set
    (wp_index <$> filter (λ wp, waypoint_selected W t wp = true) pool)
  ∪ this.
Proof.
  revert this. induction pool as [|wp rest IH]; intros this; simpl.
  - by rewrite (left_id_L ∅ (∪)).
  - rewrite IH. unfold AddItem. rewrite filter_cons.
    destruct (decide (waypoint_selected W t wp = true)) as [Ht|Hf].
    + rewrite Ht. simpl.
      by rewrite (assoc_L (∪)), (comm_L (∪) _ {[wp_index wp]}).
    + destruct (waypoint_selected W t wp); [done|]. reflexivity.
Qed.

Lemma ScriptWaypointList_set W t :
  ScriptWaypointList W t =
  list_to_set
    (wp_index <$>
       filter (λ wp, waypoint_selected W t wp = true) (waypoints W)).
Proof.
  unfold ScriptWaypointList. rewrite for_all_waypoints_set.
  apply (right_id_L ∅ (∪)).
Qed.

Lemma size_list_to_set_le (l : list Z) :
  (size (list_to_set l : gset Z) ≤ length l)%nat.
Proof.
  induction l as [|x l IH]; [done|].
  rewrite list_to_set_cons. simpl.
  destruct (decide (x ∈ (list_to_set l : gset Z))) as [Hin|Hnin].
  - rewrite (subseteq_union_1_L {[x]} (list_to_set l)); [lia|].
    by apply singleton_subseteq_l.
  - rewrite size_union, size_singleton; [lia|].
    by apply disjoint_singleton_l.
Qed.

(** Two elements of a list with the same key are one when the keys of the
    list are distinct. *)
Lemma NoDup_fmap_elem_inj {A B} (f : A → B) (l : list A) x y :
  NoDup (f <$> l) → x ∈ l → y ∈ l → f x = f y → x = y.
Proof.
  induction l as [|a l IH]; intros Hnd Hx Hy Hf.
  - by apply elem_of_nil in Hx.
  - rewrite fmap_cons in Hnd. apply NoDup_cons in Hnd as [Hna Hnd].
    apply elem_of_cons in Hx as [->|Hx]; apply elem_of_cons in Hy as [->|Hy].
    + done.
    + destruct Hna. rewrite Hf. by apply list_elem_of_fmap_2.
    + destruct Hna. rewrite <- Hf. by apply list_elem_of_fmap_2.
    + by apply IH.
Qed.

(** X1. A type mask that joins two masks lists what either mask lists. *)
Theorem ScriptWaypointList_lor (W : World) (t1 t2 : WaypointType) :
  ScriptWaypointList W (Z.lor t1 t2) =
  ScriptWaypointList W t1 ∪ ScriptWaypointList W t2.
Proof.
  apply set_eq. intros i. unfold ScriptWaypointList.
  rewrite elem_of_union, !for_all_waypoints_spec.
  assert (∀ wp, waypoint_selected W (Z.lor t1 t2) wp = true ↔
                waypoint_selected W t1 wp = true ∨
                waypoint_selected W t2 wp = true) as Hsel.
  { intros wp. rewrite !waypoint_selected_true, Z.land_lor_distr_r.
    rewrite Z.lor_eq_0_iff. split.
    - intros [Hl Ho].
      destruct (decide (Z.land (wp_facilities wp) t1 = 0)) as [H1|H1];
        [right|left]; (split; [|done]); [|done].
      intros H2. apply Hl. by split.
    - intros [[Hl Ho]|[Hl Ho]]; (split; [|done]); intros [? ?]; by apply Hl. }
  split.
  - intros [Hin|(wp & Hin & Hi & Hs)]; [by apply not_elem_of_empty in Hin|].
    apply Hsel in Hs as [Hs|Hs]; [left|right]; right; by exists wp.
  - intros [[Hin|(wp & Hin & Hi & Hs)]|[Hin|(wp & Hin & Hi & Hs)]];
      try (by apply not_elem_of_empty in Hin);
      right; exists wp; rewrite Hsel; auto.
Qed.

(** X2. The list is empty exactly when no waypoint of the world passes the
    test; the mask 0 lists nothing. *)
Theorem ScriptWaypointList_empty (W : World) (t : WaypointType) :
  (ScriptWaypointList W t = ∅ ↔
   ∀ wp, wp ∈ waypoints W →
         Z.land (wp_facilities wp) t = 0 ∨
         (wp_owner wp ≠ current_company W ∧ wp_owner wp ≠ OWNER_NONE)) ∧
  ScriptWaypointList W 0 = ∅.
Proof.
  assert (ScriptWaypointList W t = ∅ ↔
          ∀ wp, wp ∈ waypoints W → waypoint_selected W t wp = false) as Hempty.
  { split.
    - intros He wp Hin. destruct (waypoint_selected W t wp) eqn:Hs; [|done].
      assert (wp_index wp ∈ ScriptWaypointList W t) as Hi
        by (apply for_all_waypoints_spec; right; by exists wp).
      rewrite He in Hi. by apply not_elem_of_empty in Hi.
    - intros Hall. apply set_eq. intros i. split.
      + intros Hi. apply for_all_waypoints_spec in Hi
          as [Hi|(wp & Hin & _ & Hs)]; [done|].
        rewrite (Hall wp Hin) in Hs. discriminate.
      + intros Hi. by apply not_elem_of_empty in Hi. }
  split.
  - rewrite Hempty. split; intros Hall wp Hin; specialize (Hall wp Hin).
    + destruct (decide (Z.land (wp_facilities wp) t = 0)) as [?|Hl]; [by left|].
      right. split; intros Ho;
        (assert (waypoint_selected W t wp = true) as Hs
           by (apply waypoint_selected_true; auto)); congruence.
    + destruct (waypoint_selected W t wp) eqn:Hs; [|done].
      apply waypoint_selected_true in Hs as [Hl Ho].
      destruct Hall as [?|[? ?]]; [done|]. by destruct Ho.
  - apply set_eq. intros i. split.
    + intros Hi. apply for_all_waypoints_spec in Hi
        as [Hi|(wp & Hin & _ & Hs)]; [done|].
      apply waypoint_selected_true in Hs as [Hl _].
      by rewrite Z.land_0_r in Hl.
    + intros Hi. by apply not_elem_of_empty in Hi.
Qed.

(** X3. The list does not depend on the order in which the pool is
    visited. *)
Theorem ScriptWaypointList_Permutation (c : Owner) (pool pool' : list Waypoint)
    (vs : gmap Z Vehicle) (t : WaypointType) :
  pool ≡ₚ pool' →
  ScriptWaypointList (mkWorld c pool vs) t =
  ScriptWaypointList (mkWorld c pool' vs) t.
Proof.
  intros Hperm. rewrite !ScriptWaypointList_set. simpl.
  apply list_to_set_perm_L, fmap_Permutation.
  assert (∀ wp, waypoint_selected (mkWorld c pool vs) t wp
                = waypoint_selected (mkWorld c pool' vs) t wp) as Hsel by done.
  rewrite Hperm. apply reflexive_eq. f_equal.
Qed.

(** X4. The list of a pool in two parts is the union of the lists of the
    parts. *)
Theorem ScriptWaypointList_app (c : Owner) (pool1 pool2 : list Waypoint)
    (vs : gmap Z Vehicle) (t : WaypointType) :
  ScriptWaypointList (mkWorld c (pool1 ++ pool2) vs) t =
  ScriptWaypointList (mkWorld c pool1 vs) t ∪
  ScriptWaypointList (mkWorld c pool2 vs) t.
Proof.
  rewrite !ScriptWaypointList_set. simpl.
  rewrite filter_app, fmap_app, list_to_set_app_L. reflexivity.
Qed.

(** X5. The list never has more entries than the pool has waypoints. *)
Theorem ScriptWaypointList_size_le (W : World) (t : WaypointType) :
  (size (ScriptWaypointList W t) ≤ length (waypoints W))%nat.
Proof.
  rewrite ScriptWaypointList_set.
  etrans; [apply size_list_to_set_le|].
  rewrite length_fmap. apply length_filter.
Qed.

(** X6. When the waypoints of the pool have distinct indices, the list has
    one entry for each waypoint that passes the test. *)
Theorem ScriptWaypointList_size (W : World) (t : WaypointType) :
  NoDup (wp_index <$> waypoints W) →
  size (ScriptWaypointList W t) =
  length (filter (λ wp, waypoint_selected W t wp = true) (waypoints W)).
Proof.
  intros Hnd. rewrite ScriptWaypointList_set, size_list_to_set.
  - by rewrite length_fmap.
  - eapply sublist_NoDup; [exact Hnd|].
    apply fmap_sublist, sublist_filter.
Qed.

(** X7. When the waypoints of the pool have distinct indices, a waypoint of
    the pool is listed exactly when it passes the test itself: one of
    another company is never listed, nor one without a facility of the
    mask. *)
Theorem ScriptWaypointList_own (W : World) (t : WaypointType) (wp : Waypoint) :
  NoDup (wp_index <$> waypoints W) → wp ∈ waypoints W →
  (wp_index wp ∈ ScriptWaypointList W t ↔
   Z.land (wp_facilities wp) t ≠ 0 ∧
   (wp_owner wp = current_company W ∨ wp_owner wp = OWNER_NONE)).
Proof.
  intros Hnd Hin. rewrite <- waypoint_selected_true.
  unfold ScriptWaypointList. rewrite for_all_waypoints_spec. split.
  - intros [Hi|(wp' & Hin' & Hi & Hs)]; [by apply not_elem_of_empty in Hi|].
    by rewrite <- (NoDup_fmap_elem_inj wp_index _ wp' wp Hnd Hin' Hin Hi).
  - intros Hs. right. by exists wp.
Qed.

(** X8. When the waypoints of the pool have distinct indices, what two
    different companies both see listed is what is listed for [OWNER_NONE]:
    the waypoints of no company. *)
Theorem ScriptWaypointList_shared (c c' : Owner) (pool : list Waypoint)
    (vs : gmap Z Vehicle) (t : WaypointType) :
  NoDup (wp_index <$> pool) → c ≠ c' →
  ScriptWaypointList (mkWorld c pool vs) t ∩
  ScriptWaypointList (mkWorld c' pool vs) t =
  ScriptWaypointList (mkWorld OWNER_NONE pool vs) t.
Proof.
  intros Hnd Hne. apply set_eq. intros i.
  rewrite elem_of_intersection. unfold ScriptWaypointList.
  rewrite !for_all_waypoints_spec. simpl. split.
  - intros [[Hi|(w1 & Hin1 & Hi1 & Hs1)] [Hi'|(w2 & Hin2 & Hi2 & Hs2)]];
      try (by apply not_elem_of_empty in Hi);
      try (by apply not_elem_of_empty in Hi').
    assert (w2 = w1) as ->
      by (apply (NoDup_fmap_elem_inj wp_index pool); [done..|congruence]).
    apply waypoint_selected_true in Hs1 as [Hl Ho1].
    apply waypoint_selected_true in Hs2 as [_ Ho2]. simpl in *.
    right. exists w1. split; [done|]. split; [done|].
    apply waypoint_selected_true. split; [done|]. simpl.
    destruct Ho1 as [Ho1|Ho1]; [|by left].
    destruct Ho2 as [Ho2|Ho2]; [congruence|by left].
  - intros [Hi|(w & Hin & Hi & Hs)]; [by apply not_elem_of_empty in Hi|].
    apply waypoint_selected_true in Hs as [Hl Ho]. simpl in Ho.
    assert (wp_owner w = OWNER_NONE) as Hnone by (by destruct Ho).
    split; right; exists w; (split; [done|]); (split; [done|]);
      apply waypoint_selected_true; auto.
Qed.

(** X9. The list of a vehicle is empty exactly when the id names no vehicle
    of the current company with an [OT_GOTO_WAYPOINT] order in its chain; so
    it is for a vehicle without orders. *)
Theorem ScriptWaypointList_Vehicle_empty (W : World) (vid : VehicleID) :
  ScriptWaypointList_Vehicle W vid = ∅ ↔
  ¬ ∃ v o, vehicles W !! vid = Some v ∧ v_owner v = current_company W ∧
           o ∈ v_orders v ∧ IsType o OT_GOTO_WAYPOINT = true.
Proof.
  destruct (IsValidVehicle W vid) eqn:Hvalid.
  - apply IsValidVehicle_true in Hvalid as (v & Hv & Ho).
    rewrite (ScriptWaypointList_Vehicle_valid W vid v Hv Ho). split.
    + intros He (v' & o & Hv' & _ & Hin & Ht). simplify_eq.
      apply (not_elem_of_empty (C := ScriptList) (GetDestination o)).
      rewrite <- He. apply elem_of_list_to_set, list_elem_of_fmap_2.
      by apply list_elem_of_filter.
    + intros Hnone. apply set_eq. intros d. split.
      * intros Hd. apply elem_of_list_to_set, list_elem_of_fmap in Hd
          as (o & _ & Hin). apply list_elem_of_filter in Hin as [Ht Hin].
        destruct Hnone. by exists v, o.
      * intros Hd. by apply not_elem_of_empty in Hd.
  - unfold ScriptWaypointList_Vehicle. rewrite Hvalid. simpl.
    split; [|done]. intros _ (v & o & Hv & Ho & _).
    assert (IsValidVehicle W vid = true)
      by (apply IsValidVehicle_true; eauto).
    congruence.
Qed.

(** X10. Two vehicles of the current company whose chains hold the same
    [OT_GOTO_WAYPOINT] orders, in whatever arrangement and among whatever
    other orders, have the same list. *)
Theorem ScriptWaypointList_Vehicle_Permutation (W : World)
    (vid1 vid2 : VehicleID) (v1 v2 : Vehicle) :
  vehicles W !! vid1 = Some v1 → v_owner v1 = current_company W →
  vehicles W !! vid2 = Some v2 → v_owner v2 = current_company W →
  filter (λ o, IsType o OT_GOTO_WAYPOINT = true) (v_orders v1) ≡ₚ
  filter (λ o, IsType o OT_GOTO_WAYPOINT = true) (v_orders v2) →
  ScriptWaypointList_Vehicle W vid1 = ScriptWaypointList_Vehicle W vid2.
Proof.
  intros Hv1 Ho1 Hv2 Ho2 Hperm.
  rewrite (ScriptWaypointList_Vehicle_valid W vid1 v1 Hv1 Ho1).
  rewrite (ScriptWaypointList_Vehicle_valid W vid2 v2 Hv2 Ho2).
  by apply list_to_set_perm_L, fmap_Permutation.
Qed.

(** X11. A vehicle of the current company whose chain is the chain of a
    second followed by the chain of a third lists what either of them
    lists. *)
Theorem ScriptWaypointList_Vehicle_app (W : World)
    (vid vid1 vid2 : VehicleID) (v v1 v2 : Vehicle) :
  vehicles W !! vid = Some v → v_owner v = current_company W →
  vehicles W !! vid1 = Some v1 → v_owner v1 = current_company W →
  vehicles W !! vid2 = Some v2 → v_owner v2 = current_company W →
  v_orders v = v_orders v1 ++ v_orders v2 →
  ScriptWaypointList_Vehicle W vid =
  ScriptWaypointList_Vehicle W vid1 ∪ ScriptWaypointList_Vehicle W vid2.
Proof.
  intros Hv Ho Hv1 Ho1 Hv2 Ho2 Happ.
  rewrite (ScriptWaypointList_Vehicle_valid W vid v Hv Ho).
  rewrite (ScriptWaypointList_Vehicle_valid W vid1 v1 Hv1 Ho1).
  rewrite (ScriptWaypointList_Vehicle_valid W vid2 v2 Hv2 Ho2).
  by rewrite Happ, filter_app, fmap_app, list_to_set_app_L.
Qed.

End ListBuilderLaws.

(** * Properties of the script object *)

Section MonadLaws.
Context {A B : Type}.

Lemma bind_Some (m : Script A) (f : A → Script B) st b st' :
  bind m f st = Some (b, st') ↔
  ∃ a st1, m st = Some (a, st1) ∧ f a st1 = Some (b, st').
Proof.
  unfold bind. destruct (m st) as [[a st1]|].
  - split; [eauto|]. by intros (? & ? & [= <- <-] & ?).
  - split; [done|]. by intros (? & ? & ? & _).
Qed.

Lemma bind_run (m : Script A) (f : A → Script B) st a st1 :
  m st = Some (a, st1) → bind m f st = f a st1.
Proof. unfold bind. by intros ->. Qed.

Lemma exec_Some (m : Script A) st st' :
  exec m st = Some st' ↔ ∃ a, m st = Some (a, st').
Proof.
  unfold exec. destruct (m st) as [[a st1]|]; simpl.
  - split; [intros [= <-]; eauto|]. by intros (? & [= _ <-]).
  - split; [done|]. by intros (? & ?).
Qed.

Lemma eval_Some (m : Script A) st a :
  eval m st = Some a ↔ ∃ st', m st = Some (a, st').
Proof.
  unfold eval. destruct (m st) as [[a1 st1]|]; simpl.
  - split; [intros [= <-]; eauto|]. by intros (? & [= <- _]).
  - split; [done|]. by intros (? & ?).
Qed.

End MonadLaws.

(** ** Reading and writing the storage of the active instance *)

Lemma current_GetActiveInstance st i c :
  current st i c → GetActiveInstance st = Some (i, st).
Proof.
  intros [Ha _]. unfold GetActiveInstance, active in *.
  destruct (active_stack st); simplify_eq/=. done.
Qed.

Lemma current_GetStorage st i c :
  current st i c → GetStorage st = Some (c, st).
Proof.
  intros Hc. unfold GetStorage.
  rewrite (bind_run _ _ _ _ _ (current_GetActiveInstance _ _ _ Hc)).
  destruct Hc as [_ ->]. done.
Qed.

Lemma GetStorage_current st c st' :
  GetStorage st = Some (c, st') → st' = st ∧ ∃ i, current st i c.
Proof.
  unfold GetStorage, bind, GetActiveInstance, current, active.
  destruct (active_stack st) as [|i l]; [done|]. simpl.
  destruct (storage st !! i) eqn:Hs; [|done]. intros [= <- <-]. eauto.
Qed.

(** The state after the storage of instance [i] became [c]. *)
Lemma current_PutStorage st i c c' :
  current st i c →
  PutStorage c' st = Some (tt, with_storage (<[i := c']> (storage st)) st).
Proof.
  intros Hc. unfold PutStorage.
  by rewrite (bind_run _ _ _ _ _ (current_GetActiveInstance _ _ _ Hc)).
Qed.

Lemma current_with_storage st i c c' :
  current st i c → current (with_storage (<[i := c']> (storage st)) st) i c'.
Proof.
  intros [Ha _]. split; [done|]. simpl. apply lookup_insert_eq.
Qed.

Lemma current_GetField st i c f :
  current st i c → GetField f st = Some (get_field f c, st).
Proof.
  intros Hc. unfold GetField.
  by rewrite (bind_run _ _ _ _ _ (current_GetStorage _ _ _ Hc)).
Qed.

Lemma current_SetField st i c f v :
  current st i c →
  SetField f v st =
  Some (tt, with_storage (<[i := set_field f v c]> (storage st)) st).
Proof.
  intros Hc. unfold SetField.
  rewrite (bind_run _ _ _ _ _ (current_GetStorage _ _ _ Hc)).
  by apply current_PutStorage with c.
Qed.

Lemma get_set_field f v c : get_field f (set_field f v c) = v.
Proof. by destruct f. Qed.

Lemma get_set_field_ne f g v c :
  f ≠ g → get_field g (set_field f v c) = get_field g c.
Proof. by destruct f, g. Qed.

Lemma get_field_set_callback_vars f m c :
  get_field f (set_callback_vars m c) = get_field f c.
Proof. by destruct f. Qed.

(** ** Frame lemmas *)

Section Frames.
Context `{EngineHeaders} `{Dispatcher}.
Context (Q : relation Context) `{!PreOrder Q}.
Hypothesis Q_set_field : ∀ f v c, Q c (set_field f v c).

#[local] Instance storage_rel_preorder : PreOrder (storage_rel Q).
Proof.
  split.
  - intros st. split; [done|]. intros i c Hc. exists c. by split.
  - intros s1 s2 s3 [Ha1 Hs1] [Ha2 Hs2]. split; [congruence|].
    intros i c Hc. destruct (Hs1 i c Hc) as (c1 & Hc1 & HQ1).
    destruct (Hs2 i c1 Hc1) as (c2 & Hc2 & HQ2).
    exists c2. split; [done|]. by etrans.
Qed.

Lemma preserves_ret {A} (a : A) : preserves (storage_rel Q) (ret a).
Proof. intros st a' st' [= _ <-]. reflexivity. Qed.

Lemma preserves_bind {A B} (m : Script A) (f : A → Script B) :
  preserves (storage_rel Q) m → (∀ a, preserves (storage_rel Q) (f a)) →
  preserves (storage_rel Q) (bind m f).
Proof.
  intros Hm Hf st b st' Hrun.
  apply bind_Some in Hrun as (a & st1 & H1 & H2).
  etrans; [by eapply Hm|by eapply Hf].
Qed.

Lemma preserves_pure {A} (m : Script A) :
  (∀ st a st', m st = Some (a, st') → st' = st) →
  preserves (storage_rel Q) m.
Proof. intros Hm st a st' Hrun. rewrite (Hm _ _ _ Hrun). reflexivity. Qed.

Lemma GetField_pure f st a st' : GetField f st = Some (a, st') → st' = st.
Proof.
  unfold GetField. intros Hrun.
  apply bind_Some in Hrun as (c & st1 & Hget & [= _ <-]).
  by apply GetStorage_current in Hget as [-> _].
Qed.

Lemma storage_rel_update st i c c' :
  current st i c → Q c c' →
  storage_rel Q st (with_storage (<[i := c']> (storage st)) st).
Proof.
  intros [_ Hc] HQ. split; [done|]. intros j cj Hj. simpl.
  destruct (decide (i = j)) as [->|Hne].
  - rewrite lookup_insert_eq. simplify_eq. eauto.
  - rewrite lookup_insert_ne by done. exists cj. split; [done|reflexivity].
Qed.

Lemma preserves_modify (g : Context → Context) :
  (∀ c, Q c (g c)) →
  preserves (storage_rel Q) (let* c := GetStorage in PutStorage (g c)).
Proof.
  intros Hg st a st' Hrun.
  apply bind_Some in Hrun as (c & st1 & Hget & Hput).
  apply GetStorage_current in Hget as [-> [i Hc]].
  rewrite (current_PutStorage _ _ _ _ Hc) in Hput. simplify_eq.
  by apply storage_rel_update with c.
Qed.

Lemma preserves_SetField f v : preserves (storage_rel Q) (SetField f v).
Proof. apply preserves_modify. intros c. apply Q_set_field. Qed.

Lemma preserves_GetField f : preserves (storage_rel Q) (GetField f).
Proof. apply preserves_pure, GetField_pure. Qed.

Lemma preserves_IncreaseDoCommandCosts value :
  preserves (storage_rel Q) (IncreaseDoCommandCosts value).
Proof.
  unfold IncreaseDoCommandCosts. apply preserves_bind.
  - apply preserves_GetField.
  - intros c. destruct (MONEY_MAX <? c + value).
    + apply preserves_bind; [|intros _]; apply preserves_SetField.
    + apply preserves_SetField.
Qed.

Lemma preserves_store_new {A} (set : A → Script unit) id :
  (∀ x, preserves (storage_rel Q) (set x)) →
  preserves (storage_rel Q) (store_new set id).
Proof. intros Hset. destruct id; simpl; [apply Hset|apply preserves_ret]. Qed.

Lemma preserves_DoCommand args callback :
  preserves (storage_rel Q) (DoCommand args callback).
Proof.
  unfold DoCommand.
  repeat first
    [ apply preserves_SetField | apply preserves_GetField | apply preserves_ret
    | apply preserves_store_new; intros ?
    | apply preserves_bind; [|intros ?]
    | match goal with
      | |- preserves _ (if ?b then _ else _) => destruct b
      | |- preserves _ (match ?o with Some _ => _ | None => _ end) => destruct o
      end ].
  - intros s0 r0 s1 [= _ <-]. reflexivity.
  - intros s0 r0 s1 [= _ <-]. reflexivity.
  - intros s0 r0 s1. unfold dispatch.
    destruct (submit args (engine s0)) as [w res]. intros [= _ <-].
    split; [done|]. intros i c Hc. exists c. split; [done|reflexivity].
  - intros s0 r0 s1. unfold GetActiveInstance.
    destruct (active_stack s0); [done|]. intros [= _ <-]. reflexivity.
  - intros s0 r0 s1 [= _ <-].
    split; [done|]. intros j c Hc. exists c. split; [done|reflexivity].
Qed.

(** Any call other than a write of a callback variable keeps [Q]; such a
    write keeps it when [Q] allows the write. *)
Lemma preserves_run_op op :
  (∀ index value c, op = OpSetCallbackVariable index value →
     Q c (set_callback_vars (<[index := value]> (callback_vars c)) c)) →
  preserves (storage_rel Q) (run_op op).
Proof.
  intros Hcb. destruct op; simpl.
  - apply preserves_SetField.
  - apply preserves_bind; [apply preserves_GetField|intros; apply preserves_ret].
  - unfold SetCallbackVariable. destruct (callback_index_ok index).
    + apply preserves_modify. intros c. by apply Hcb.
    + by intros st a st'.
  - apply preserves_bind; [|intros; apply preserves_ret].
    unfold GetCallbackVariable. destruct (callback_index_ok index).
    + apply preserves_pure. intros st a st' Hrun.
      apply bind_Some in Hrun as (c & st1 & Hget & [= _ <-]).
      by apply GetStorage_current in Hget as [-> _].
    + by intros st a st'.
  - apply preserves_IncreaseDoCommandCosts.
  - apply preserves_bind; [apply preserves_DoCommand|intros; apply preserves_ret].
Qed.

End Frames.

(** ** DoCommand, costs and accessors *)

Section FacadeProofs.
Context `{EngineHeaders} `{Dispatcher}.

Lemma current_unique st i c i' c' :
  current st i c → current st i' c' → i' = i ∧ c' = c.
Proof. intros [Ha Hc] [Ha' Hc']. by simplify_eq. Qed.

Lemma GetField_inv f st a st' :
  GetField f st = Some (a, st') →
  st' = st ∧ ∃ i c, current st i c ∧ a = get_field f c.
Proof.
  unfold GetField. intros Hrun.
  apply bind_Some in Hrun as (c & st1 & Hget & [= <- <-]).
  apply GetStorage_current in Hget as [-> [i Hc]]. eauto.
Qed.


Lemma current_eval_GetField st i c f :
  current st i c → eval (GetField f) st = Some (get_field f c).
Proof. intros Hc. unfold eval. by rewrite (current_GetField _ _ _ _ Hc). Qed.

Lemma current_CanSuspend st i c :
  current st i c →
  CanSuspend st = Some (safe_to_suspend st && allow_do_command c, st).
Proof.
  intros Hc. unfold CanSuspend, GetAllowDoCommand.
  by rewrite (bind_run _ _ _ _ _ (current_GetField _ _ _ F_allow_do_command Hc)).
Qed.

Lemma eval_CanSuspend_inv st b :
  eval CanSuspend st = Some b →
  ∃ i c, current st i c ∧ b = safe_to_suspend st && allow_do_command c.
Proof.
  intros Hev. apply eval_Some in Hev as [st' Hrun].
  unfold CanSuspend in Hrun.
  apply bind_Some in Hrun as (allow & st1 & Hget & Hret).
  apply GetField_inv in Hget as [-> (i & c & Hc & ->)].
  simplify_eq/=. eauto.
Qed.

(** C5. While [CanSuspend()] is false, [DoCommand] returns false, hands
    nothing to the dispatcher, leaves the world as it was, and
    [GetLastError()] afterwards is [ERR_PRECONDITION_FAILED]. *)
Theorem DoCommand_forbidden (st : ScriptState) (args : CommandArgs)
    (callback : option Z) :
  eval CanSuspend st = Some false →
  ∃ st', DoCommand args callback st = Some (false, st') ∧
         dispatched st' = dispatched st ∧ engine st' = engine st ∧
         eval GetLastError st' = Some ERR_PRECONDITION_FAILED.
Proof.
  intros Hcan. apply eval_CanSuspend_inv in Hcan as (i & c & Hc & Hb).
  unfold DoCommand.
  rewrite (bind_run _ _ _ _ _ (current_CanSuspend _ _ _ Hc)), <- Hb. simpl.
  unfold SetLastError.
  rewrite (bind_run _ _ _ _ _
             (current_SetField _ _ _ F_last_error ERR_PRECONDITION_FAILED Hc)).
  eexists. split; [reflexivity|]. split; [done|]. split; [done|].
  unfold GetLastError.
  rewrite (current_eval_GetField _ i _ F_last_error
             (current_with_storage _ _ _ _ Hc)).
  by rewrite get_set_field.
Qed.




Lemma modify_inv (g : Context → Context) st u st' :
  (let* c := GetStorage in PutStorage (g c)) st = Some (u, st') →
  ∃ i c, current st i c ∧
         st' = with_storage (<[i := g c]> (storage st)) st.
Proof.
  intros Hrun. apply bind_Some in Hrun as (c & st1 & Hget & Hput).
  apply GetStorage_current in Hget as [-> [i Hc]].
  rewrite (current_PutStorage _ _ _ _ Hc) in Hput. simplify_eq. eauto.
Qed.

Lemma GetCallbackVariable_inv index st a st' :
  GetCallbackVariable index st = Some (a, st') →
  st' = st ∧ callback_index_ok index = true.
Proof.
  unfold GetCallbackVariable. destruct (callback_index_ok index); [|done].
  intros Hrun. apply bind_Some in Hrun as (c & st1 & Hget & [= _ <-]).
  by apply GetStorage_current in Hget as [-> _].
Qed.

Lemma SetSlot_current s v st u st' :
  SetSlot s v st = Some (u, st') →
  ∃ i c', current st' i c' ∧ read_slot s c' = v ∧ slot_ok s = true.
Proof.
  destruct s as [f|index]; simpl in *.
  - intros Hrun. apply modify_inv in Hrun as (i & c & Hc & ->).
    exists i, (set_field f v c).
    split; [by apply current_with_storage with c|].
    by rewrite get_set_field.
  - unfold SetCallbackVariable.
    destruct (callback_index_ok index); [|done].
    intros Hrun. apply modify_inv in Hrun as (i & c & Hc & ->).
    eexists i, _. split; [by apply current_with_storage with c|].
    simpl. by rewrite lookup_insert_eq.
Qed.

Lemma current_GetSlot s st i c :
  current st i c → slot_ok s = true →
  eval (GetSlot s) st = Some (read_slot s c).
Proof.
  intros Hc Hok. destruct s as [f|index]; simpl in *.
  - by apply current_eval_GetField with i.
  - unfold GetCallbackVariable, eval. rewrite Hok.
    by rewrite (bind_run _ _ _ _ _ (current_GetStorage _ _ _ Hc)).
Qed.

(** The one setter of two fields: both getters see what it stored. *)
Lemma SetDoCommandMode_then_Get st i c proc instance :
  current st i c →
  eval (SetDoCommandMode proc instance >>
        (let* p := GetDoCommandMode in
         let* o := GetDoCommandModeInstance in ret (p, o))) st
  = Some (proc, instance).
Proof.
  intros Hc. unfold SetDoCommandMode, GetDoCommandMode, GetDoCommandModeInstance.
  set (c1 := set_field F_mode_proc proc c).
  set (st1 := with_storage (<[i := c1]> (storage st)) st).
  assert (current st1 i c1) as Hc1 by (by apply current_with_storage with c).
  set (c2 := set_field F_mode_instance instance c1).
  set (st2 := with_storage (<[i := c2]> (storage st1)) st1).
  assert (current st2 i c2) as Hc2 by (by apply current_with_storage with c1).
  unfold eval. rewrite (bind_run _ _ _ tt st2).
  - rewrite (bind_run _ _ _ _ _ (current_GetField _ _ _ F_mode_proc Hc2)).
    by rewrite (bind_run _ _ _ _ _ (current_GetField _ _ _ F_mode_instance Hc2)).
  - rewrite (bind_run _ _ _ tt st1); by apply current_SetField.
Qed.

Lemma run_ops_preserves (Q : relation Context) `{!PreOrder Q} ops :
  (∀ f v c, Q c (set_field f v c)) →
  (∀ index value c, OpSetCallbackVariable index value ∈ ops →
     Q c (set_callback_vars (<[index := value]> (callback_vars c)) c)) →
  preserves (storage_rel Q) (run_ops ops).
Proof.
  intros Hset. induction ops as [|op ops IH]; intros Hcb; simpl.
  - by apply preserves_ret.
  - apply preserves_bind; [done| |intros u].
    + apply preserves_run_op; [done..|]. intros index value c ->.
      apply Hcb. by left.
    + apply IH. intros index value c Hin. apply Hcb. by right.
Qed.

(** C9. From the creation of an instance on, a callback variable within the
    agreed range that no [SetCallbackVariable] has written reads as zero,
    whatever else the script called. *)
Theorem GetCallbackVariable_unset (st0 st : ScriptState) (i : AIInstance)
    (c : Context) (ops : list Op) (index : Z) :
  current st0 i c → created c → callback_index_ok index = true →
  (∀ value, OpSetCallbackVariable index value ∉ ops) →
  exec (run_ops ops) st0 = Some st →
  eval (GetCallbackVariable index) st = Some 0.
Proof.
  intros Hc (_ & _ & _ & _ & Hvars) Hok Hnever Hrun.
  apply exec_Some in Hrun as [u Hrun].
  set (Q := λ c1 c2 : Context,
              callback_vars c2 !! index = callback_vars c1 !! index).
  assert (PreOrder Q) as HQ.
  { split; [by intros ?|]. intros c1 c2 c3 H12 H23. unfold Q in *. congruence. }
  assert (storage_rel Q st0 st) as [Hstack Hlive].
  { eapply (run_ops_preserves Q ops); [done| |exact Hrun].
    intros j value c' Hin. unfold Q. simpl.
    apply lookup_insert_ne. intros ->. by apply (Hnever value). }
  destruct Hc as [Hact Hsto].
  destruct (Hlive i c Hsto) as (c' & Hsto' & Hq).
  assert (current st i c') as Hc'.
  { split; [|done]. unfold active in *. by rewrite Hstack. }
  unfold GetCallbackVariable, eval. rewrite Hok.
  rewrite (bind_run _ _ _ _ _ (current_GetStorage _ _ _ Hc')). simpl.
  unfold Q in Hq. by rewrite Hq, Hvars, lookup_empty.
Qed.

(** ** Scoped activation *)

(** Induction on script code, with the hypothesis for every statement of a
    scope's body. *)
Lemma Stmt_nested_ind (P : Stmt → Prop) :
  (∀ op, P (SCall op)) →
  (∀ instance body, Forall P body → P (SScope instance body)) →
  ∀ s, P s.
Proof.
  intros Hcall Hscope. fix IH 1. intros [op|instance body].
  - apply Hcall.
  - apply Hscope. induction body as [|s body IHbody]; constructor.
    + apply IH.
    + apply IHbody.
Qed.

Lemma ActiveInstance_ctor_inv instance st this st' :
  ActiveInstance_ctor instance st = Some (this, st') →
  last_active this = active st ∧
  st' = with_stack (instance :: active_stack st) st.
Proof.
  unfold ActiveInstance_ctor. destruct (storage st !! instance); [|done].
  by intros [= <- <-].
Qed.

Lemma ActiveInstance_dtor_inv this st u st' :
  ActiveInstance_dtor this st = Some (u, st') →
  ∃ top rest, active_stack st = top :: rest ∧
              head rest = last_active this ∧ st' = with_stack rest st.
Proof.
  unfold ActiveInstance_dtor. destruct (active_stack st) as [|top rest]; [done|].
  destruct (decide (head rest = last_active this)); [|done].
  intros [= _ <-]. eauto.
Qed.

(** The relation that only asks for the same activations and for live
    storages to stay live. *)
#[local] Instance any_context_preorder : PreOrder (λ _ _ : Context, True).
Proof. by split. Qed.

Lemma run_stmts_preserves body :
  Forall (λ s, preserves (storage_rel (λ _ _, True)) (run_stmt s)) body →
  preserves (storage_rel (λ _ _, True)) (run_stmts body).
Proof.
  induction 1 as [|s body Hs _ IH]; simpl.
  - by apply preserves_ret.
  - apply preserves_bind; [apply _|done|by intros _].
Qed.

(** Script code leaves the activations as it found them. *)
Lemma run_stmt_preserves s :
  preserves (storage_rel (λ _ _, True)) (run_stmt s).
Proof.
  induction s as [op|instance body IH] using Stmt_nested_ind.
  - simpl. apply preserves_run_op; [apply _|done..].
  - intros st u st' Hrun. simpl in Hrun.
    apply bind_Some in Hrun as (this & st1 & Hctor & Hrun).
    apply bind_Some in Hrun as (u' & st2 & Hbody & Hdtor).
    apply ActiveInstance_ctor_inv in Hctor as [Hsaved ->].
    apply (run_stmts_preserves body IH) in Hbody as [Hstack Hlive].
    apply ActiveInstance_dtor_inv in Hdtor as (top & rest & Hst2 & _ & ->).
    simpl in *. split; [simpl; congruence|]. intros i c Hc.
    destruct (Hlive i c Hc) as (c' & Hc' & _). eauto.
Qed.

Lemma run_stmts_stack body st u st' :
  run_stmts body st = Some (u, st') → active_stack st' = active_stack st.
Proof.
  intros Hrun. eapply (run_stmts_preserves body); [|exact Hrun].
  apply Forall_forall. intros s _. apply run_stmt_preserves.
Qed.

(** C1. Let scope [B] activate [iB], run [pre], and reach a nested scope
    [A] that activates [iA] and runs its body. Then the active instance
    before [A] began is [iB], the one [A] saved; the destructor of [A] finds
    the LIFO discipline kept and leaves [iB] active again. *)
Theorem nested_activation_restores (st sB s1 sA sA' : ScriptState)
    (iB iA : AIInstance) (b a : ActiveInstance) (pre bodyA : list Stmt) :
  ActiveInstance_ctor iB st = Some (b, sB) →
  exec (run_stmts pre) sB = Some s1 →
  ActiveInstance_ctor iA s1 = Some (a, sA) →
  exec (run_stmts bodyA) sA = Some sA' →
  active sB = Some iB ∧ active s1 = Some iB ∧ last_active a = Some iB ∧
  active sA = Some iA ∧
  ∃ s2, ActiveInstance_dtor a sA' = Some (tt, s2) ∧
        active s2 = Some iB ∧ active s2 = last_active a ∧
        active_stack s2 = active_stack s1.
Proof.
  intros HB Hpre HA Hbody.
  apply ActiveInstance_ctor_inv in HB as [_ ->].
  apply exec_Some in Hpre as [u1 Hpre]. apply run_stmts_stack in Hpre.
  apply ActiveInstance_ctor_inv in HA as [Hsaved ->].
  apply exec_Some in Hbody as [u2 Hbody]. apply run_stmts_stack in Hbody.
  simpl in *.
  assert (active s1 = Some iB) as Hs1 by (unfold active; by rewrite Hpre).
  split; [done|]. split; [done|]. split; [congruence|]. split; [done|].
  unfold ActiveInstance_dtor. rewrite Hbody.
  destruct (decide (head (active_stack s1) = last_active a)) as [_|Hne];
    [|by destruct Hne].
  eexists. split; [done|]. unfold active in *. simpl.
  split; [done|]. split; [congruence|done].
Qed.

End FacadeProofs.

(** ** What a call leaves alone *)

Section SlotFrames.
Context `{EngineHeaders} `{Dispatcher}.
Context (s : Slot) (i : AIInstance).

#[local] Instance slot_rel_preorder : PreOrder (slot_rel s i).
Proof.
  split.
  - intros st. split; [done|]. intros c Hc. by exists c.
  - intros s1 s2 s3 [Ha1 Hs1] [Ha2 Hs2]. split; [congruence|].
    intros c Hc. destruct (Hs1 c Hc) as (c1 & Hc1 & Hr1).
    destruct (Hs2 c1 Hc1) as (c2 & Hc2 & Hr2).
    exists c2. split; [done|congruence].
Qed.

Lemma from_ret {A} cur (a : A) : preserves_from cur (slot_rel s i) (ret a).
Proof. intros st a' st' _ [= _ <-]. reflexivity. Qed.

Lemma from_bind {A B} cur (m : Script A) (f : A → Script B) :
  preserves_from cur (slot_rel s i) m →
  (∀ a, preserves_from cur (slot_rel s i) (f a)) →
  preserves_from cur (slot_rel s i) (bind m f).
Proof.
  intros Hm Hf st b st' Hact Hrun.
  apply bind_Some in Hrun as (a & st1 & H1 & H2).
  pose proof (Hm _ _ _ Hact H1) as Hr1.
  etrans; [exact Hr1|]. eapply Hf; [|exact H2].
  destruct Hr1 as [Hstack _]. unfold active in *. by rewrite Hstack.
Qed.

Lemma from_pure {A} cur (m : Script A) :
  (∀ st a st', m st = Some (a, st') → st' = st) →
  preserves_from cur (slot_rel s i) m.
Proof. intros Hm st a st' _ Hrun. rewrite (Hm _ _ _ Hrun). reflexivity. Qed.

(** A change of the storage of the active instance keeps the slot when the
    active instance is another one, or the change does not touch the slot. *)
Lemma from_modify cur (g : Context → Context) :
  (cur = i → ∀ c, read_slot s (g c) = read_slot s c) →
  preserves_from cur (slot_rel s i)
    (let* c := GetStorage in PutStorage (g c)).
Proof.
  intros Hg st a st' Hact Hrun.
  apply modify_inv in Hrun as (j & c & [Hj Hc] & ->).
  assert (j = cur) as -> by congruence.
  split; [done|]. intros c0 Hc0. simpl.
  destruct (decide (cur = i)) as [->|Hne].
  - rewrite lookup_insert_eq. simplify_eq. eauto.
  - rewrite lookup_insert_ne by done. eauto.
Qed.

Lemma read_slot_set_field f v c :
  s ≠ SlotField f → read_slot s (set_field f v c) = read_slot s c.
Proof.
  intros Hne. destruct s as [g|index]; simpl; [|done].
  apply get_set_field_ne. by intros ->.
Qed.

Lemma from_SetField cur f v :
  (cur = i → s ≠ SlotField f) →
  preserves_from cur (slot_rel s i) (SetField f v).
Proof.
  intros Hne. apply from_modify. intros Hcur c.
  by apply read_slot_set_field, Hne.
Qed.

Lemma from_GetField cur f : preserves_from cur (slot_rel s i) (GetField f).
Proof. apply from_pure, GetField_pure. Qed.

Lemma from_store_new {A} cur (set : A → Script unit) id :
  (∀ x, preserves_from cur (slot_rel s i) (set x)) →
  preserves_from cur (slot_rel s i) (store_new set id).
Proof. intros Hset. destruct id; simpl; [apply Hset|apply from_ret]. Qed.

Lemma from_run_op cur op :
  (cur = i → s ∉ op_writes op) →
  preserves_from cur (slot_rel s i) (run_op op).
Proof.
  intros Hw.
  assert (∀ f, SlotField f ∈ op_writes op → cur = i → s ≠ SlotField f) as Hf.
  { intros f Hin Hcur ->. by apply (Hw Hcur). }
  destruct op as [f v|f|index value|index|value|args callback]; simpl in *.
  - apply from_SetField, Hf. by left.
  - apply from_bind; [apply from_GetField|intros; apply from_ret].
  - unfold SetCallbackVariable. destruct (callback_index_ok index).
    + apply from_modify. intros Hcur c.
      destruct s as [g|j]; simpl; [apply get_field_set_callback_vars|].
      rewrite lookup_insert_ne; [done|]. intros ->.
      apply (Hw Hcur). by left.
    + by intros st a st'.
  - apply from_bind; [|intros; apply from_ret].
    apply from_pure. intros st a st' Hrun.
    by apply GetCallbackVariable_inv in Hrun as [-> _].
  - unfold IncreaseDoCommandCosts. apply from_bind; [apply from_GetField|].
    intros c. destruct (MONEY_MAX <? c + value).
    + apply from_bind; [|intros _]; apply from_SetField, Hf;
        repeat first [by left | right].
    + apply from_SetField, Hf. by left.
  - apply from_bind; [|intros; apply from_ret]. unfold DoCommand.
    repeat first
      [ apply from_GetField | apply from_ret
      | apply from_SetField, Hf; repeat first [by left | right]
      | apply from_store_new; intros ?
      | apply from_bind; [|intros ?]
      | match goal with
        | |- preserves_from _ _ (if ?b then _ else _) => destruct b
        | |- preserves_from _ _ (match ?o with Some _ => _ | None => _ end) =>
            destruct o
        end ].
    + intros s0 r0 s1 _ [= _ <-]. reflexivity.
    + intros s0 r0 s1 _ [= _ <-]. reflexivity.
    + intros s0 r0 s1 _. unfold dispatch.
      destruct (submit args (engine s0)) as [w res]. intros [= _ <-].
      split; [done|]. intros c Hc. by exists c.
    + intros s0 r0 s1 _. unfold GetActiveInstance.
      destruct (active_stack s0); [done|]. intros [= _ <-]. reflexivity.
    + intros s0 r0 s1 _ [= _ <-].
      split; [done|]. intros c Hc. by exists c.
Qed.

Lemma run_stmts_keeps_slot cur body :
  Forall (λ c, ∀ cur, s ∉ stmt_writes i cur c →
                      preserves_from cur (slot_rel s i) (run_stmt c)) body →
  s ∉ code_writes i cur body →
  preserves_from cur (slot_rel s i) (run_stmts body).
Proof.
  induction 1 as [|c body Hc _ IH]; simpl; intros Hw.
  - apply from_ret.
  - apply not_elem_of_app in Hw as [Hw1 Hw2].
    apply from_bind; [by apply Hc|intros _; by apply IH].
Qed.

(** Script code keeps a slot of instance [i] that none of its calls on [i]
    may set, whatever it does to the storage of other instances. *)
Lemma run_stmt_keeps_slot c :
  ∀ cur, s ∉ stmt_writes i cur c →
         preserves_from cur (slot_rel s i) (run_stmt c).
Proof.
  induction c as [op|instance body IH] using Stmt_nested_ind; intros cur Hw.
  - simpl in *. apply from_run_op. intros ->.
    by destruct (decide (i = i)).
  - intros st u st' Hact Hrun. simpl in Hrun.
    apply bind_Some in Hrun as (this & st1 & Hctor & Hrun).
    apply bind_Some in Hrun as (u' & st2 & Hbody & Hdtor).
    apply ActiveInstance_ctor_inv in Hctor as [Hsaved ->].
    apply (run_stmts_keeps_slot instance body IH Hw) in Hbody
      as [Hstack Hlive]; [|done].
    apply ActiveInstance_dtor_inv in Hdtor as (top & rest & Hst2 & _ & ->).
    simpl in *. split; [simpl; congruence|exact Hlive].
Qed.

End SlotFrames.

(** C8. After [Set<F>(v)] on the active instance, whatever code runs in
    between, calls of every kind and nested activations of any instance, as
    long as none of its calls on that instance sets [F], [Get<F>()] on that
    instance returns [v]; [F] ranges over the fields and over the callback
    variables. *)
Theorem Set_then_Get `{EngineHeaders} `{Dispatcher} (s : Slot)
    (v : slot_type s) (i : AIInstance) (code : list Stmt)
    (st st1 st2 : ScriptState) :
  active st = Some i →
  exec (SetSlot s v) st = Some st1 →
  s ∉ code_writes i i code →
  exec (run_stmts code) st1 = Some st2 →
  active st2 = Some i ∧ eval (GetSlot s) st2 = Some v.
Proof.
  intros Hact Hset Hw Hrun.
  apply exec_Some in Hset as [u Hset].
  assert (active st1 = Some i) as Hact1.
  { destruct s as [f|index]; simpl in Hset.
    - apply modify_inv in Hset as (j & c & _ & ->). done.
    - unfold SetCallbackVariable in Hset.
      destruct (callback_index_ok index); [|done].
      apply modify_inv in Hset as (j & c & _ & ->). done. }
  apply SetSlot_current in Hset as (j & c1 & [Hj Hc1] & <- & Hok).
  assert (j = i) as -> by congruence.
  apply exec_Some in Hrun as [u' Hrun].
  assert (slot_rel s i st1 st2) as [Hstack Hlive].
  { eapply (run_stmts_keeps_slot s i i code); [|exact Hw|exact Hact1|exact Hrun].
    apply Forall_forall. intros c _. apply run_stmt_keeps_slot. }
  destruct (Hlive c1 Hc1) as (c2 & Hc2 & <-).
  assert (active st2 = Some i) as Hact2 by (unfold active in *; by rewrite Hstack).
  split; [done|]. by apply current_GetSlot with i.
Qed.

(** * Scenarios *)

#[local] Existing Instance test_headers.
#[local] Existing Instance test_dispatcher.

(** S4: with C1 the current company, the rail waypoints are W1 and W3. *)
Example S4_waypoint_filter : ScriptWaypointList test_world 1 = {[ 1; 3 ]}.
Proof. vm_compute. reflexivity. Qed.

(** S5: the waypoints vehicle V1 is ordered to are W1 and W3. *)
Example S5_vehicle_waypoint_list :
  ScriptWaypointList_Vehicle test_world 1 = {[ 1; 3 ]}.
Proof. vm_compute. reflexivity. Qed.

(** C3 at vehicle 2, which C2 owns, and at the id 77 of no vehicle. *)
Lemma ScriptWaypointList_Vehicle_invalid_witness :
  (vehicles test_world !! 2 = Some (mkVehicle 1 [mkOrder 6 1]) ∧
   v_owner (mkVehicle 1 [mkOrder 6 1]) ≠ current_company test_world ∧
   ScriptWaypointList_Vehicle test_world 2 = ∅) ∧
  (vehicles test_world !! 77 = None ∧
   ScriptWaypointList_Vehicle test_world 77 = ∅).
Proof.
  assert (vehicles test_world !! 2 = Some (mkVehicle 1 [mkOrder 6 1])) as H2
    by reflexivity.
  assert (vehicles test_world !! 77 = None) as H77 by reflexivity.
  split; [split; [exact H2|split; [simpl; lia|]]|split; [exact H77|]].
  - apply ScriptWaypointList_Vehicle_invalid. right.
    exists (mkVehicle 1 [mkOrder 6 1]). split; [exact H2|simpl; lia].
  - apply ScriptWaypointList_Vehicle_invalid. left. exact H77.
Defined.

(** C4 at vehicle V1 of scenario S5: two entries for three waypoint orders. *)
Lemma ScriptWaypointList_Vehicle_exact_witness :
  let v1 := mkVehicle 0 [mkOrder 6 1; mkOrder 1 7; mkOrder 6 3; mkOrder 6 1] in
  vehicles test_world !! 1 = Some v1 ∧
  v_owner v1 = current_company test_world ∧
  (∀ d, d ∈ ScriptWaypointList_Vehicle test_world 1 ↔
        ∃ o, o ∈ v_orders v1 ∧ IsType o OT_GOTO_WAYPOINT = true ∧
             GetDestination o = d) ∧
  size (ScriptWaypointList_Vehicle test_world 1) = 2%nat.
Proof.
  intros v1.
  assert (vehicles test_world !! 1 = Some v1) as Hv by reflexivity.
  assert (v_owner v1 = current_company test_world) as Ho by reflexivity.
  split; [exact Hv|]. split; [exact Ho|].
  exact (ScriptWaypointList_Vehicle_exact test_world 1 v1 Hv Ho).
Defined.

(** C10 at vehicle V3: its orders name W4, which C2 owns, and the id 99 of
    no waypoint; both are listed, while [WaypointList] leaves W4 out. *)
Lemma ScriptWaypointList_Vehicle_unfiltered_witness :
  let v3 := mkVehicle 0 [mkOrder 6 4; mkOrder 6 99] in
  vehicles test_world !! 3 = Some v3 ∧
  v_owner v3 = current_company test_world ∧
  mkOrder 6 4 ∈ v_orders v3 ∧ IsType (mkOrder 6 4) OT_GOTO_WAYPOINT = true ∧
  mkWaypoint 4 1 1 ∈ waypoints test_world ∧
  (4 ∉ ScriptWaypointList test_world 1) ∧
  (4 ∈ ScriptWaypointList_Vehicle test_world 3 ∧
   ∀ pool : list Waypoint,
     ScriptWaypointList_Vehicle
       (mkWorld (current_company test_world) pool (vehicles test_world)) 3
     = ScriptWaypointList_Vehicle test_world 3).
Proof.
  intros v3.
  assert (vehicles test_world !! 3 = Some v3) as Hv by reflexivity.
  assert (v_owner v3 = current_company test_world) as Ho by reflexivity.
  assert (mkOrder 6 4 ∈ v_orders v3) as Hin by (simpl; apply list_elem_of_here).
  assert (IsType (mkOrder 6 4) OT_GOTO_WAYPOINT = true) as Ht by reflexivity.
  split; [exact Hv|]. split; [exact Ho|]. split; [exact Hin|].
  split; [exact Ht|]. split.
  { unfold test_world, test_waypoints. simpl.
    do 3 apply list_elem_of_further. apply list_elem_of_here. }
  split.
  { rewrite S4_waypoint_filter. intros Hin4.
    apply elem_of_union in Hin4 as [Hin4|Hin4];
      apply elem_of_singleton in Hin4; lia. }
  exact (ScriptWaypointList_Vehicle_unfiltered test_world 3 v3 (mkOrder 6 4)
           Hv Ho Hin Ht).
Defined.

(** S1: I1 activates, I2 activates inside it, and both scopes close; the
    state is again the one the script started from, with nothing active. *)
Example S1_nested_activation :
  exec (run_stmt (SScope 1 [SScope 2 []])) test_state = Some test_state.
Proof. vm_compute. reflexivity. Qed.

(** C1 at scenario S1, with calls in both scopes and I1 activated once more
    inside the scope of I2. *)
Lemma nested_activation_restores_witness :
  let pre := [SCall (OpSet F_costs 0)] in
  let bodyA := [SCall (OpSet F_costs 7); SScope 1 [SCall (OpGet F_costs)]] in
  let sB := after (ActiveInstance_ctor 1) test_state in
  let s1 := after (run_stmts pre) sB in
  let sA := after (ActiveInstance_ctor 2) s1 in
  let sA' := after (run_stmts bodyA) sA in
  ActiveInstance_ctor 1 test_state = Some (mkActiveInstance None, sB) ∧
  exec (run_stmts pre) sB = Some s1 ∧
  ActiveInstance_ctor 2 s1 = Some (mkActiveInstance (Some 1%nat), sA) ∧
  exec (run_stmts bodyA) sA = Some sA' ∧
  active sB = Some 1%nat ∧ active s1 = Some 1%nat ∧
  last_active (mkActiveInstance (Some 1%nat)) = Some 1%nat ∧
  active sA = Some 2%nat ∧
  ∃ s2, ActiveInstance_dtor (mkActiveInstance (Some 1%nat)) sA' = Some (tt, s2) ∧
        active s2 = Some 1%nat ∧
        active s2 = last_active (mkActiveInstance (Some 1%nat)) ∧
        active_stack s2 = active_stack s1.
Proof.
  intros pre bodyA sB s1 sA sA'.
  assert (ActiveInstance_ctor 1 test_state = Some (mkActiveInstance None, sB))
    as HB by (vm_compute; reflexivity).
  assert (exec (run_stmts pre) sB = Some s1) as Hpre
    by (vm_compute; reflexivity).
  assert (ActiveInstance_ctor 2 s1 = Some (mkActiveInstance (Some 1%nat), sA))
    as HA by (vm_compute; reflexivity).
  assert (exec (run_stmts bodyA) sA = Some sA') as Hbody
    by (vm_compute; reflexivity).
  split; [exact HB|]. split; [exact Hpre|]. split; [exact HA|].
  split; [exact Hbody|].
  exact (nested_activation_restores test_state sB s1 sA sA' 1%nat 2%nat
           (mkActiveInstance None) (mkActiveInstance (Some 1%nat))
           pre bodyA HB Hpre HA Hbody).
Defined.

(** S6 and C5: the script of I1 is not allowed commands. *)
Lemma DoCommand_forbidden_witness :
  let st := test_state_with test_forbidden in
  eval CanSuspend st = Some false ∧
  ∃ st', DoCommand test_command None st = Some (false, st') ∧
         dispatched st' = dispatched st ∧ engine st' = engine st ∧
         eval GetLastError st' = Some ERR_PRECONDITION_FAILED.
Proof.
  intros st.
  assert (eval CanSuspend st = Some false) as Hcan by reflexivity.
  split; [exact Hcan|].
  exact (DoCommand_forbidden st test_command None Hcan).
Defined.



(** S3: in a test mode with commands allowed, a command that would cost 500
    returns true, the world is the one before, and [GetLastCost()] is 500. *)
Example S3_mode_dry_run :
  let st := test_state_with test_estimating in
  eval CanSuspend st = Some true ∧
  eval (DoCommand test_command None) st = Some true ∧
  engine (after (DoCommand test_command None) st) = engine st ∧
  eval (DoCommand test_command None >> GetLastCost) st = Some 500.
Proof. vm_compute. repeat split; reflexivity. Qed.



(** S2: 0, then 100, then 250 more. *)
Example S2_cost_accumulation :
  eval (SetDoCommandCosts 0 >> IncreaseDoCommandCosts 100 >>
        IncreaseDoCommandCosts 250 >> GetDoCommandCosts)
       (test_state_with test_context) = Some 350.
Proof. vm_compute. reflexivity. Qed.

(** Where the first sum falls below the minimum the result is the type's
    business: for a [Money] that stays at its minimum, 1 off the minimum and
    then 1 more leave the minimum plus 1, not the minimum. *)
Example IncreaseDoCommandCosts_below_min :
  eval (IncreaseDoCommandCosts (-1) >> IncreaseDoCommandCosts 1 >>
        GetDoCommandCosts)
       (test_state_with (set_field F_costs MONEY_MIN test_context))
  = Some (MONEY_MIN + 1).
Proof. vm_compute. reflexivity. Qed.

(** C8 at the road type of I1: in between, a cost increase, a command, a
    scope of I2 that sets its own road type, a scope of I1 that reads, and a
    write of a callback variable. *)
Lemma Set_then_Get_witness :
  let s := SlotField F_road_type in
  let code := [SCall (OpIncreaseDoCommandCosts 5);
               SCall (OpDoCommand test_command None);
               SScope 2 [SCall (OpSet F_road_type 9)];
               SScope 1 [SCall (OpGet F_road_type)];
               SCall (OpSetCallbackVariable 2 9)] in
  let st := test_state_with test_context in
  let st1 := after (SetSlot s 3) st in
  let st2 := after (run_stmts code) st1 in
  active st = Some 1%nat ∧
  exec (SetSlot s 3) st = Some st1 ∧
  (s ∉ code_writes 1 1 code) ∧
  exec (run_stmts code) st1 = Some st2 ∧
  active st2 = Some 1%nat ∧ eval (GetSlot s) st2 = Some 3.
Proof.
  intros s code st st1 st2.
  assert (active st = Some 1%nat) as Hact by reflexivity.
  assert (exec (SetSlot s 3) st = Some st1) as Hset
    by (vm_compute; reflexivity).
  assert (s ∉ code_writes 1 1 code) as Hw.
  { simpl. intros Hin.
    repeat (apply elem_of_cons in Hin as [Hin|Hin]; [discriminate|]).
    by apply elem_of_nil in Hin. }
  assert (exec (run_stmts code) st1 = Some st2) as Hrun
    by (vm_compute; reflexivity).
  split; [exact Hact|]. split; [exact Hset|]. split; [exact Hw|].
  split; [exact Hrun|].
  exact (Set_then_Get s 3 1%nat code st st1 st2 Hact Hset Hw Hrun).
Defined.

(** C8 at a callback variable, with a write of another one in between. *)
Example Set_then_Get_callback :
  eval (SetCallbackVariable 2 9 >> SetCallbackVariable 3 4 >>
        GetCallbackVariable 2) (test_state_with test_context) = Some 9.
Proof. vm_compute. reflexivity. Qed.

(** C9 at variable 3 of a new instance, after a write of variable 2, a
    command and a cost increase. *)
Lemma GetCallbackVariable_unset_witness :
  let ops := [OpSetCallbackVariable 2 9; OpDoCommand test_command None;
              OpIncreaseDoCommandCosts 10] in
  let st0 := test_state_with test_context in
  let st := after (run_ops ops) st0 in
  current st0 1%nat test_context ∧ created test_context ∧
  callback_index_ok 3 = true ∧
  (∀ value, OpSetCallbackVariable 3 value ∉ ops) ∧
  exec (run_ops ops) st0 = Some st ∧
  eval (GetCallbackVariable 3) st = Some 0.
Proof.
  intros ops st0 st.
  assert (current st0 1%nat test_context) as Hc by (split; reflexivity).
  assert (created test_context) as Hnew by (repeat split).
  assert (callback_index_ok 3 = true) as Hok by reflexivity.
  assert (∀ value, OpSetCallbackVariable 3 value ∉ ops) as Hnever.
  { intros value Hin.
    repeat (apply elem_of_cons in Hin as [Hin|Hin]; [discriminate|]).
    by apply elem_of_nil in Hin. }
  assert (exec (run_ops ops) st0 = Some st) as Hrun
    by (vm_compute; reflexivity).
  split; [exact Hc|]. split; [exact Hnew|]. split; [exact Hok|].
  split; [exact Hnever|]. split; [exact Hrun|].
  exact (GetCallbackVariable_unset st0 st 1%nat test_context ops 3
           Hc Hnew Hok Hnever Hrun).
Defined.

(** ** Scenarios for the laws of the loops *)

Lemma test_waypoints_NoDup : NoDup (wp_index <$> test_waypoints).
Proof. apply (bool_decide_unpack _). vm_compute. exact I. Qed.

(** X3 at the pool of scenario S4 visited backwards. *)
Lemma ScriptWaypointList_Permutation_witness :
  test_waypoints ≡ₚ reverse test_waypoints ∧
  ScriptWaypointList (mkWorld 0 test_waypoints test_vehicles) 1 =
  ScriptWaypointList (mkWorld 0 (reverse test_waypoints) test_vehicles) 1.
Proof.
  assert (test_waypoints ≡ₚ reverse test_waypoints) as Hperm
    by (symmetry; apply reverse_Permutation).
  split; [exact Hperm|].
  exact (ScriptWaypointList_Permutation 0 test_waypoints
           (reverse test_waypoints) test_vehicles 1 Hperm).
Defined.

(** X6 at scenario S4: two of the four waypoints pass the test. *)
Lemma ScriptWaypointList_size_witness :
  NoDup (wp_index <$> waypoints test_world) ∧
  size (ScriptWaypointList test_world 1) = 2%nat.
Proof.
  split; [exact test_waypoints_NoDup|].
  exact (ScriptWaypointList_size test_world 1 test_waypoints_NoDup).
Defined.

(** X7 at W4 of scenario S4, a rail waypoint of C2: it is not listed for
    C1. *)
Lemma ScriptWaypointList_own_witness :
  NoDup (wp_index <$> waypoints test_world) ∧
  mkWaypoint 4 1 1 ∈ waypoints test_world ∧
  (4 ∈ ScriptWaypointList test_world 1 ↔
   Z.land 1 1 ≠ 0 ∧ (1 = current_company test_world ∨ 1 = OWNER_NONE)).
Proof.
  assert (mkWaypoint 4 1 1 ∈ waypoints test_world) as Hin.
  { unfold test_world, test_waypoints. simpl.
    do 3 apply list_elem_of_further. apply list_elem_of_here. }
  split; [exact test_waypoints_NoDup|]. split; [exact Hin|].
  exact (ScriptWaypointList_own test_world 1 (mkWaypoint 4 1 1)
           test_waypoints_NoDup Hin).
Defined.

(** X8 at scenario S4: C1 and C2 share W3, the waypoint of no company. *)
Lemma ScriptWaypointList_shared_witness :
  NoDup (wp_index <$> test_waypoints) ∧ 0 ≠ 1 ∧
  ScriptWaypointList (mkWorld 0 test_waypoints test_vehicles) 1 ∩
  ScriptWaypointList (mkWorld 1 test_waypoints test_vehicles) 1 =
  ScriptWaypointList (mkWorld OWNER_NONE test_waypoints test_vehicles) 1.
Proof.
  assert (0 ≠ 1) as Hne by lia.
  split; [exact test_waypoints_NoDup|]. split; [exact Hne|].
  exact (ScriptWaypointList_shared 0 1 test_waypoints test_vehicles 1
           test_waypoints_NoDup Hne).
Defined.

Example ScriptWaypointList_shared_W3 :
  ScriptWaypointList (mkWorld OWNER_NONE test_waypoints test_vehicles) 1
  = {[ 3 ]}.
Proof. vm_compute. reflexivity. Qed.

(** X10 at vehicles 10 and 11 of the fleet. *)
Lemma ScriptWaypointList_Vehicle_Permutation_witness :
  let v10 := mkVehicle 0 [mkOrder 6 1; mkOrder 1 7; mkOrder 6 3; mkOrder 6 1] in
  let v11 := mkVehicle 0 [mkOrder 6 1; mkOrder 6 1; mkOrder 6 3] in
  vehicles test_fleet !! 10 = Some v10 ∧
  v_owner v10 = current_company test_fleet ∧
  vehicles test_fleet !! 11 = Some v11 ∧
  v_owner v11 = current_company test_fleet ∧
  filter (λ o, IsType o OT_GOTO_WAYPOINT = true) (v_orders v10) ≡ₚ
  filter (λ o, IsType o OT_GOTO_WAYPOINT = true) (v_orders v11) ∧
  ScriptWaypointList_Vehicle test_fleet 10 =
  ScriptWaypointList_Vehicle test_fleet 11.
Proof.
  intros v10 v11.
  assert (vehicles test_fleet !! 10 = Some v10) as Hv1 by reflexivity.
  assert (v_owner v10 = current_company test_fleet) as Ho1 by reflexivity.
  assert (vehicles test_fleet !! 11 = Some v11) as Hv2 by reflexivity.
  assert (v_owner v11 = current_company test_fleet) as Ho2 by reflexivity.
  assert (filter (λ o, IsType o OT_GOTO_WAYPOINT = true) (v_orders v10) ≡ₚ
          filter (λ o, IsType o OT_GOTO_WAYPOINT = true) (v_orders v11))
    as Hperm.
  { change ([mkOrder 6 1; mkOrder 6 3; mkOrder 6 1] ≡ₚ
            [mkOrder 6 1; mkOrder 6 1; mkOrder 6 3]).
    apply perm_skip, perm_swap. }
  split; [exact Hv1|]. split; [exact Ho1|]. split; [exact Hv2|].
  split; [exact Ho2|]. split; [exact Hperm|].
  exact (ScriptWaypointList_Vehicle_Permutation test_fleet 10 11 v10 v11
           Hv1 Ho1 Hv2 Ho2 Hperm).
Defined.

(** X11 at vehicle 13 of the fleet, whose chain is that of vehicle 10
    followed by that of vehicle 12. *)
Lemma ScriptWaypointList_Vehicle_app_witness :
  let v10 := mkVehicle 0 [mkOrder 6 1; mkOrder 1 7; mkOrder 6 3; mkOrder 6 1] in
  let v12 := mkVehicle 0 [mkOrder 6 4] in
  let v13 := mkVehicle 0 (v_orders v10 ++ v_orders v12) in
  vehicles test_fleet !! 13 = Some v13 ∧
  v_owner v13 = current_company test_fleet ∧
  vehicles test_fleet !! 10 = Some v10 ∧
  v_owner v10 = current_company test_fleet ∧
  vehicles test_fleet !! 12 = Some v12 ∧
  v_owner v12 = current_company test_fleet ∧
  v_orders v13 = v_orders v10 ++ v_orders v12 ∧
  ScriptWaypointList_Vehicle test_fleet 13 =
  ScriptWaypointList_Vehicle test_fleet 10 ∪
  ScriptWaypointList_Vehicle test_fleet 12.
Proof.
  intros v10 v12 v13.
  assert (vehicles test_fleet !! 13 = Some v13) as Hv by reflexivity.
  assert (v_owner v13 = current_company test_fleet) as Ho by reflexivity.
  assert (vehicles test_fleet !! 10 = Some v10) as Hv1 by reflexivity.
  assert (v_owner v10 = current_company test_fleet) as Ho1 by reflexivity.
  assert (vehicles test_fleet !! 12 = Some v12) as Hv2 by reflexivity.
  assert (v_owner v12 = current_company test_fleet) as Ho2 by reflexivity.
  assert (v_orders v13 = v_orders v10 ++ v_orders v12) as Happ by reflexivity.
  split; [exact Hv|]. split; [exact Ho|]. split; [exact Hv1|].
  split; [exact Ho1|]. split; [exact Hv2|]. split; [exact Ho2|].
  split; [exact Happ|].
  exact (ScriptWaypointList_Vehicle_app test_fleet 13 10 12 v13 v10 v12
           Hv Ho Hv1 Ho1 Hv2 Ho2 Happ).
Defined.
